(** * Concurrent person tracking: counter, video worker, orchestrator

    Shallow embedding of [tracking_and_processing_concurrent.py]:
    the lock-protected [ThreadSafeCounter], the per-video pipeline
    [process_single_video] and the collecting loop and summary of
    [process_multiple_videos].

    Conventions.
    - Python integers are unbounded: counters and frame numbers are [nat],
      coordinates, class ids and track ids are [Z].
    - Confidences and clock readings are floats in the program; a float is
      read here as the rational it denotes ([Q]).  Confidences are
      float32 tensors: comparing one with a Python literal compares it
      with the literal rounded to float32, and the thresholds below are
      these rounded values.
    - Wall-clock measurements that only end up in the reports (the
      [processing_info] block, elapsed times, report time stamps) are left
      out of the result records.
    - The models, the video decoder, the clock and the file system are
      outside the program.  Their answers are part of the input (a frame
      carries what [track] answers on it, a box carries what the t-shirt
      model answers on its crop), and the calls the program makes to them
      are recorded, in order, in the [log] of the [World]. *)

From Stdlib Require Import String List ZArith QArith Bool Arith Lia.
From Stdlib Require Import Permutation Sorted.
Import ListNotations.

Local Open Scope nat_scope.

(* ================================================================= *)
(** ** ThreadSafeCounter *)

Record ThreadSafeCounter := { _value : nat }.

(** [ThreadSafeCounter.__init__] *)
Definition new_counter : ThreadSafeCounter := {| _value := 0 |}.

(** [ThreadSafeCounter.increment] as one atomic action: the body of the
    [with self._lock] block, which is what a single caller observes. *)
Definition increment (c : ThreadSafeCounter) : nat * ThreadSafeCounter :=
  let c' := {| _value := _value c + 1 |} in
  (_value c', c').

(** The values returned by [n] calls made one after the other. *)
Fixpoint increments (n : nat) (c : ThreadSafeCounter) : list nat :=
  match n with
  | O => []
  | S n' => let (v, c') := increment c in v :: increments n' c'
  end.

(** *** The same method, run by several threads

    Every thread is in one of the places of [increment]; a scheduler
    picks which thread moves next.  [self._value += 1] is a read
    followed by a write, [return self._value] is a second read, and the
    lock is given back when the [with] block is left, before the value
    reaches the caller. *)
Module Counter.

Inductive pc : Type :=
| Idle                  (* not inside increment *)
| Entering              (* called; waiting at [with self._lock] *)
| Locked                (* lock taken *)
| Loaded (v : nat)      (* [self._value] read for [+= 1] *)
| Stored                (* [self._value] written *)
| Leaving (r : nat)     (* return value read, lock still held *)
| Returning (r : nat).  (* lock given back, value on its way to the caller *)

Record state := {
  counter  : ThreadSafeCounter;
  lock     : option nat;          (* the thread that holds [_lock] *)
  pcs      : list pc;             (* one entry per worker thread *)
  issued   : list nat;            (* values read at [return], in lock order *)
  returned : list (nat * nat)     (* (thread, value) in order of arrival *)
}.

Definition init (workers : nat) : state :=
  {| counter := new_counter; lock := None; pcs := repeat Idle workers;
     issued := []; returned := [] |}.

Fixpoint upd (t : nat) (p : pc) (l : list pc) : list pc :=
  match l, t with
  | [], _ => []
  | _ :: r, O => p :: r
  | q :: r, S t' => q :: upd t' p r
  end.

Definition set_pc (t : nat) (p : pc) (s : state) : state :=
  {| counter := counter s; lock := lock s; pcs := upd t p (pcs s);
     issued := issued s; returned := returned s |}.

(** One move of thread [t].  A thread that waits for a held lock, and a
    thread number that names no worker, leave the state as it is. *)
Definition step (t : nat) (s : state) : state :=
  match nth_error (pcs s) t with
  | None => s
  | Some Idle => set_pc t Entering s
  | Some Entering =>
      match lock s with
      | None => {| counter := counter s; lock := Some t;
                   pcs := upd t Locked (pcs s);
                   issued := issued s; returned := returned s |}
      | Some _ => s
      end
  | Some Locked => set_pc t (Loaded (_value (counter s))) s
  | Some (Loaded v) =>
      {| counter := {| _value := v + 1 |}; lock := lock s;
         pcs := upd t Stored (pcs s);
         issued := issued s; returned := returned s |}
  | Some Stored =>
      let r := _value (counter s) in
      {| counter := counter s; lock := lock s;
         pcs := upd t (Leaving r) (pcs s);
         issued := issued s ++ [r]; returned := returned s |}
  | Some (Leaving r) =>
      {| counter := counter s; lock := None;
         pcs := upd t (Returning r) (pcs s);
         issued := issued s; returned := returned s |}
  | Some (Returning r) =>
      {| counter := counter s; lock := lock s;
         pcs := upd t Idle (pcs s);
         issued := issued s; returned := returned s ++ [(t, r)] |}
  end.

Definition run (schedule : list nat) (s : state) : state :=
  fold_left (fun s t => step t s) schedule s.

(** Values computed inside the lock that have not reached their caller. *)
Definition pending (p : pc) : list nat :=
  match p with
  | Leaving r | Returning r => [r]
  | _ => []
  end.

Definition outstanding (l : list pc) : list nat := flat_map pending l.

(** Places in which a thread holds the lock. *)
Definition critical (p : pc) : bool :=
  match p with
  | Locked | Loaded _ | Stored | Leaving _ => true
  | _ => false
  end.

Definition quiescent (s : state) : Prop := Forall (fun p => p = Idle) (pcs s).

(** What holds between any two moves: the values read at [return] are
    1, 2, 3, ... in lock order; each of them is with exactly one caller,
    arrived or on its way; only the holder of the lock is inside the
    [with] block, and the counter is ahead of the values read by one
    exactly between the write and the read. *)
Definition holder_ok (s : state) (p : pc) : Prop :=
  match p with
  | Locked => _value (counter s) = length (issued s)
  | Loaded v => v = length (issued s) /\ _value (counter s) = length (issued s)
  | Stored => _value (counter s) = S (length (issued s))
  | Leaving _ => _value (counter s) = length (issued s)
  | _ => False
  end.

Definition inv (s : state) : Prop :=
  issued s = seq 1 (length (issued s))
  /\ Permutation (map snd (returned s) ++ outstanding (pcs s)) (issued s)
  /\ match lock s with
     | None =>
         (forall t p, nth_error (pcs s) t = Some p -> critical p = false)
         /\ _value (counter s) = length (issued s)
     | Some h =>
         (forall t p, nth_error (pcs s) t = Some p -> critical p = true -> t = h)
         /\ exists p, nth_error (pcs s) h = Some p /\ holder_ok s p
     end.

End Counter.

(* ================================================================= *)
(** ** Exceptions, the outside world, the program monad *)

(** Exceptions the program can meet.  [Fault] is raised by an outside
    call (a model, the decoder); [BaseException]s that are not
    [Exception]s pass through [except Exception]. *)
Inductive exn : Type :=
| ZeroDivisionError
| ValueError
| Fault (name : string) (derives_Exception : bool).

Definition is_Exception (e : exn) : bool :=
  match e with
  | Fault _ d => d
  | _ => true
  end.

Inductive Res (A : Type) : Type :=
| Val (a : A)
| Exc (e : exn).
Arguments Val {A} a.
Arguments Exc {A} e.

(** Paths are kept as their components: [os.path.join(a, b)] is [[a; b]]. *)
Definition Path := list string.

(** The file names the program builds with f-strings, by their fields. *)
Inductive FileName : Type :=
| person_global_ (global_person_number : nat) (track_id : Z)
                 (frame_number : nat) (timestamp : Q)
| annotated_global_ (global_person_number : nat) (track_id : Z)
                    (frame_number : nat) (timestamp : Q)
| results_ (video_name : string)
| combined_results_.

(** Calls that leave the program. *)
Inductive Event : Type :=
| Makedirs (dir : Path)                         (* os.makedirs(.., exist_ok=True) *)
| LoadModels                                    (* load_models() *)
| Open (video_path : string)                    (* cv2.VideoCapture(video_path) *)
| Track (frame_number : nat)                    (* person_model.track(frame, ..) *)
| Classify (frame_number : nat) (track_id : Z)  (* tshirt_model(person_roi, ..) *)
| Imwrite (dir : Path) (file : FileName)        (* cv2.imwrite *)
| Release                                       (* videoCap.release() *)
| JsonDump (dir : Path) (file : FileName).      (* open(.., 'w') + json.dump *)

(** The world as one worker sees it.  The counter is shared with the
    other workers: [interleaved] says, for each of this worker's coming
    calls of [increment], how many calls of other workers get the lock
    first (none once the list is used up).  [global_person_counter] is
    the counter as of this worker's last call. *)
Record World := {
  global_person_counter : ThreadSafeCounter;
  interleaved : list nat;
  log : list Event
}.

Definition M (A : Type) : Type := World -> Res A * World.

Definition ret {A} (a : A) : M A := fun w => (Val a, w).

Definition raise {A} (e : exn) : M A := fun w => (Exc e, w).

Definition bind {A B} (m : M A) (k : A -> M B) : M B :=
  fun w =>
    match m w with
    | (Val a, w') => k a w'
    | (Exc e, w') => (Exc e, w')
    end.

Declare Scope prog_scope.
Delimit Scope prog_scope with prog.
Notation "x <- m ;; k" := (bind m (fun x => k))
  (at level 100, m at next level, right associativity) : prog_scope.
Notation "m ;;; k" := (bind m (fun _ => k))
  (at level 100, right associativity) : prog_scope.
Local Open Scope prog_scope.

Definition emit (e : Event) : M unit :=
  fun w => (Val tt, {| global_person_counter := global_person_counter w;
                       interleaved := interleaved w;
                       log := log w ++ [e] |}).

(** An outside call: it is recorded, then answers or raises. *)
Definition call {A} (e : Event) (answer : Res A) : M A :=
  emit e ;;;
  match answer with
  | Val a => ret a
  | Exc x => raise x
  end.

(** [n] calls of [increment] by other workers. *)
Definition others_increment (n : nat) (c : ThreadSafeCounter) : ThreadSafeCounter :=
  Nat.iter n (fun c => snd (increment c)) c.

(** [global_person_counter.increment()] *)
Definition global_increment : M nat :=
  fun w =>
    let c := others_increment (hd 0 (interleaved w)) (global_person_counter w) in
    let (n, c') := increment c in
    (Val n, {| global_person_counter := c';
               interleaved := tl (interleaved w);
               log := log w |}).

(** A call whose answer is given and that leaves no trace: it returns
    or raises. *)
Definition answer {A} (r : Res A) : M A :=
  match r with
  | Val a => ret a
  | Exc x => raise x
  end.

(** A [for] loop whose body may raise; [continue] is the body returning. *)
Fixpoint for_each {A S} (body : A -> S -> M S) (xs : list A) (s : S) : M S :=
  match xs with
  | [] => ret s
  | x :: rest => s' <- body x s ;; for_each body rest s'
  end.

(* ================================================================= *)
(** ** Data of the video worker *)

(** What the t-shirt model answers on one crop ([tshirt_results[0]]). *)
Record TshirtBox := { tshirt_conf : Q; tshirt_cls : Z }.

Record TshirtResult := {
  tshirt_boxes : option (list TshirtBox);      (* [.boxes], possibly None *)
  names : option (list (Z * string));          (* [.names], None when absent or empty *)
  plot : Res bool;                             (* first [.plot()]: raises, or is not None *)
  plot_again : Res unit                        (* second [.plot()]: raises, or renders *)
}.

(** One tracked box, with what the outside answers while it is handled. *)
Record Box := {
  conf : Q;                         (* box.conf[0] *)
  cls : Z;                          (* int(box.cls[0]) *)
  xyxy : Z * Z * Z * Z;             (* map(int, box.xyxy[0]) *)
  tshirt_answer : Res TshirtResult; (* tshirt_model on this box's crop *)
  now : Q;                          (* datetime.now() when its image is named *)
  person_write : Res unit;          (* cv2.imwrite of its crop *)
  annotated_write : Res unit        (* cv2.imwrite of its annotated crop *)
}.

Record Boxes := {
  items : list Box;
  id : option (list Z)              (* [.id], int(track_id) applied *)
}.

Record Result := { boxes : option Boxes }.

Record Frame := {
  shape : nat * nat;                   (* frame.shape[0], frame.shape[1] *)
  track_answer : Res (list Result);    (* person_model.track on this frame *)
  clock : Q                            (* time.time() if this frame is sampled *)
}.

Record Stream := {
  fps : Z;
  total_frames : Z;                    (* CAP_PROP_FRAME_COUNT, as reported *)
  start_clock : Q;                     (* time.time() before the loop *)
  frames : list Frame                  (* what read() hands out, in order *)
}.

Record Video := {
  video_path : string;
  stem : string;                       (* Path(video_path).stem *)
  capture : option Stream              (* None: isOpened() is false *)
}.

Inductive TshirtClass : Type :=
| named (s : string)                   (* names[class_id] *)
| class_ (class_id : Z)                (* f"class_{class_id}" *)
| tshirt_class_ (class_id : Z).        (* f"tshirt_class_{..}" *)

Record DetectionRecord := {
  video_file : string;
  global_person_number : nat;
  track_id : Z;
  local_person_number : nat;
  first_detected_frame : nat;
  timestamp : Q;
  person_confidence : Q;
  bounding_box : Z * Z * Z * Z;
  tshirt_detections : list (TshirtClass * Q);
  person_image : FileName;
  annotated_image : option FileName
}.

(** A Python dict with integer keys: insertion order is kept, assigning
    to a present key replaces its value in place. *)
Definition dict (V : Type) := list (Z * V).

Fixpoint dict_mem {V} (k : Z) (d : dict V) : bool :=
  match d with
  | [] => false
  | (k', _) :: rest => if Z.eqb k k' then true else dict_mem k rest
  end.

Fixpoint dict_set {V} (k : Z) (v : V) (d : dict V) : dict V :=
  match d with
  | [] => [(k, v)]
  | (k', v') :: rest =>
      if Z.eqb k k' then (k', v) :: rest else (k', v') :: dict_set k v rest
  end.

Definition dict_keys {V} (d : dict V) : list Z := map fst d.

(** The local variables of [process_single_video] that the loop changes. *)
Record Locals := {
  detection_results : list DetectionRecord;
  tracked_people : dict DetectionRecord;
  local_person_count : nat;
  frame_number : nat;
  last_progress_time : Q
}.

Record VideoResult := {
  summary_video_file : string;
  video_name : string;
  total_unique_people_detected : nat;
  total_frames_processed : nat;
  tracking_ids_detected : list Z;
  summary_detection_results : list DetectionRecord;
  output_directory : Path
}.

(* ================================================================= *)
(** ** process_single_video *)

(** Length of [a[lo:hi]] on an axis of [n] entries (numpy and Python
    slicing with step 1): a negative bound counts from the end, and both
    bounds are clipped to the axis. *)
Definition slice_bound (n : nat) (i : Z) : Z :=
  if (i <? 0)%Z then Z.max (i + Z.of_nat n) 0 else Z.min i (Z.of_nat n).

Definition slice_len (n : nat) (lo hi : Z) : nat :=
  Z.to_nat (slice_bound n hi - slice_bound n lo).

(** [person_roi = frame[y1:y2, x1:x2]], by its [shape[0]], [shape[1]]. *)
Definition person_roi_shape (fr : Frame) (box : Box) : nat * nat :=
  let '(x1, y1, x2, y2) := xyxy box in
  (slice_len (fst (shape fr)) y1 y2, slice_len (snd (shape fr)) x1 x2).

Definition Qgtb (x y : Q) : bool := negb (Qle_bool x y).

(** The literals [0.4] and [0.3] as float32: 0.4000000059604645 and
    0.30000001192092896. *)
Definition float32_0_4 : Q := 13421773 # 33554432.
Definition float32_0_3 : Q := 5033165 # 16777216.

(** [box.conf[0] > 0.4 and int(box.cls[0]) == 0] *)
Definition is_confident_person (box : Box) : bool :=
  Qgtb (conf box) float32_0_4 && (cls box =? 0)%Z.

(** [person_roi.shape[0] < 50 or person_roi.shape[1] < 50] *)
Definition too_small (fr : Frame) (box : Box) : bool :=
  (fst (person_roi_shape fr box) <? 50) || (snd (person_roi_shape fr box) <? 50).

Fixpoint names_get (class_id : Z) (d : list (Z * string)) : option string :=
  match d with
  | [] => None
  | (k, s) :: rest => if Z.eqb class_id k then Some s else names_get class_id rest
  end.

(** The list built by the loop over [tshirt_results[0].boxes]. *)
Definition tshirt_info_of (r : TshirtResult) : list (TshirtClass * Q) :=
  match tshirt_boxes r with
  | None => []
  | Some bs =>
      flat_map
        (fun tb =>
           if Qgtb (tshirt_conf tb) float32_0_3 then
             let tshirt_class :=
               match names r with
               | Some d =>
                   match names_get (tshirt_cls tb) d with
                   | Some s => named s
                   | None => class_ (tshirt_cls tb)
                   end
               | None => tshirt_class_ (tshirt_cls tb)
               end in
             [(tshirt_class, tshirt_conf tb)]
           else [])
        bs
  end.

Definition video_output_dir (output_base_dir : string) (v : Video) : Path :=
  [output_base_dir; stem v].

Definition count_person (l : Locals) : Locals :=
  {| detection_results := detection_results l;
     tracked_people := tracked_people l;
     local_person_count := local_person_count l + 1;
     frame_number := frame_number l;
     last_progress_time := last_progress_time l |}.

Definition store_detection (d : DetectionRecord) (l : Locals) : Locals :=
  {| detection_results := detection_results l ++ [d];
     tracked_people := dict_set (track_id d) d (tracked_people l);
     local_person_count := local_person_count l;
     frame_number := frame_number l;
     last_progress_time := last_progress_time l |}.

(** Body of [for box, track_id in zip(result.boxes, result.boxes.id)]. *)
Definition process_box (output_base_dir : string) (v : Video) (fr : Frame)
    (bt : Box * Z) (l : Locals) : M Locals :=
  let (box, track_id) := bt in
  if is_confident_person box then
    if dict_mem track_id (tracked_people l) then ret l
    else
      let l := count_person l in
      global_person_number <- global_increment ;;
      if too_small fr box then ret l
      else
        tshirt_results <-
          call (Classify (frame_number l) track_id) (tshirt_answer box) ;;
        let tshirt_info := tshirt_info_of tshirt_results in
        let timestamp := now box in
        let person_filename :=
          person_global_ global_person_number track_id (frame_number l) timestamp in
        call (Imwrite (video_output_dir output_base_dir v) person_filename)
          (person_write box) ;;;
        plotted <- answer (plot tshirt_results) ;;
        annotated_filename <-
          (if plotted : bool then
             answer (plot_again tshirt_results) ;;;
             let f := annotated_global_ global_person_number track_id
                        (frame_number l) timestamp in
             call (Imwrite (video_output_dir output_base_dir v) f)
               (annotated_write box) ;;;
             ret (Some f)
           else ret None) ;;
        let detection_data :=
          {| video_file := stem v;
             global_person_number := global_person_number;
             track_id := track_id;
             local_person_number := local_person_count l;
             first_detected_frame := frame_number l;
             timestamp := timestamp;
             person_confidence := conf box;
             bounding_box := xyxy box;
             tshirt_detections := tshirt_info;
             person_image := person_filename;
             annotated_image := annotated_filename |} in
        ret (store_detection detection_data l)
  else ret l.

(** Body of [for result in results]. *)
Definition process_result (output_base_dir : string) (v : Video) (fr : Frame)
    (result : Result) (l : Locals) : M Locals :=
  match boxes result with
  | Some bs =>
      match id bs with
      | Some ids =>
          for_each (process_box output_base_dir v fr) (combine (items bs) ids) l
      | None => ret l
      end
  | None => ret l
  end.

(** The progress report.  Printing is not kept; what is kept is the
    division [frame_number / total_frames] and the update of
    [last_progress_time]. *)
Definition report_progress (s : Stream) (fr : Frame) (l : Locals) : M Locals :=
  if Qle_bool 5 (clock fr - last_progress_time l) then
    if (total_frames s =? 0)%Z then raise ZeroDivisionError
    else ret {| detection_results := detection_results l;
                tracked_people := tracked_people l;
                local_person_count := local_person_count l;
                frame_number := frame_number l;
                last_progress_time := clock fr |}
  else ret l.

(** [frame_number += 1] *)
Definition next_frame (l : Locals) : Locals :=
  {| detection_results := detection_results l;
     tracked_people := tracked_people l;
     local_person_count := local_person_count l;
     frame_number := frame_number l + 1;
     last_progress_time := last_progress_time l |}.

(** Body of [while True], for a frame that [read()] delivered. *)
Definition process_frame (output_base_dir : string) (v : Video) (s : Stream)
    (fr : Frame) (l : Locals) : M Locals :=
  let l := next_frame l in
  if negb (frame_number l mod 10 =? 0) then ret l
  else
    l <- report_progress s fr l ;;
    results <- call (Track (frame_number l)) (track_answer fr) ;;
    for_each (process_result output_base_dir v fr) results l.

(** The "storage for results" and the counters, as set before the loop. *)
Definition initial_locals (s : Stream) : Locals :=
  {| detection_results := [];
     tracked_people := [];
     local_person_count := 0;
     frame_number := 0;
     last_progress_time := start_clock s |}.

(** [result_summary], from the variables as the loop left them. *)
Definition summary (video : Video) (output_base_dir : string) (l : Locals)
    : VideoResult :=
  {| summary_video_file := video_path video;
     video_name := stem video;
     total_unique_people_detected := local_person_count l;
     total_frames_processed := frame_number l;
     tracking_ids_detected := dict_keys (tracked_people l);
     summary_detection_results := detection_results l;
     output_directory := video_output_dir output_base_dir video |}.

Definition process_single_video (video : Video) (output_base_dir : string)
    : M (option VideoResult) :=
  emit (Makedirs (video_output_dir output_base_dir video)) ;;;
  emit LoadModels ;;;
  emit (Open (video_path video)) ;;;
  match capture video with
  | None => ret None
  | Some s =>
      l <- for_each (process_frame output_base_dir video s) (frames s)
             (initial_locals s) ;;
      emit Release ;;;
      let result_summary := summary video output_base_dir l in
      emit (JsonDump (video_output_dir output_base_dir video)
              (results_ (stem video))) ;;;
      ret (Some result_summary)
  end.

(* ================================================================= *)
(** ** process_multiple_videos *)

Record ProcessingSummary := {
  total_videos_processed : nat;
  total_videos_requested : nat;
  max_workers_used : Z;
  total_people_detected_across_all_videos : nat
}.

Record CombinedResult := {
  processing_summary : ProcessingSummary;
  individual_video_results : list VideoResult
}.

(** A finished future, as the collecting loop meets it: the path it was
    submitted for ([future_to_video[future]]) and what [future.result()]
    does, which is to hand over what the worker returned or to raise what
    the worker raised. *)
Definition Settled : Type := string * Res (option VideoResult).

(** What the executor keeps of one worker run. *)
Definition settle (video : Video) (output_base_dir : string) (w : World)
    : Settled * World :=
  let (r, w') := process_single_video video output_base_dir w in
  ((video_path video, r), w').

(** Body of [for future in as_completed(future_to_video)].  A
    [VideoResult] is a non-empty dict, hence true in [if result]. *)
Definition collect (future : Settled) (all_results : list VideoResult)
    : M (list VideoResult) :=
  match snd future with
  | Val (Some result) => ret (all_results ++ [result])
  | Val None => ret all_results
  | Exc exc => if is_Exception exc then ret all_results else raise exc
  end.

(** [min(len(video_paths), os.cpu_count() or 1, 4)] *)
Definition default_workers (video_paths : list string) (cpu_count : option nat) : Z :=
  let cpus := match cpu_count with
              | Some (S n) => S n
              | _ => 1
              end in
  Z.of_nat (Nat.min (Nat.min (length video_paths) cpus) 4).

(** [as_completed] is the list of finished futures in the order in which
    the pool delivers them; [cpu_count] is what [os.cpu_count()] says.
    [ThreadPoolExecutor] refuses a worker count below one with a
    [ValueError], before any task is submitted. *)
Definition process_multiple_videos (video_paths : list string)
    (max_workers : option Z) (output_base_dir : string)
    (cpu_count : option nat) (as_completed : list Settled)
    : M CombinedResult :=
  emit (Makedirs [output_base_dir]) ;;;
  let max_workers := match max_workers with
                     | None => default_workers video_paths cpu_count
                     | Some m => m
                     end in
  if (max_workers <=? 0)%Z then raise ValueError
  else
    all_results <- for_each collect as_completed [] ;;
    let total_people_detected :=
      list_sum (map total_unique_people_detected all_results) in
    let combined_results :=
      {| processing_summary :=
           {| total_videos_processed := length all_results;
              total_videos_requested := length video_paths;
              max_workers_used := max_workers;
              total_people_detected_across_all_videos := total_people_detected |};
         individual_video_results := all_results |} in
    emit (JsonDump [] combined_results_) ;;;
    ret combined_results.

(** The workers of a run with one pool thread: they run one after the
    other, in submission order, on the shared counter. *)
Fixpoint run_in_turn (videos : list Video) (output_base_dir : string)
    (w : World) : list Settled * World :=
  match videos with
  | [] => ([], w)
  | v :: rest =>
      let (f, w1) := settle v output_base_dir w in
      let (fs, w2) := run_in_turn rest output_base_dir w1 in
      (f :: fs, w2)
  end.

(** The successful results among finished futures, in their order. *)
Definition successes (fs : list Settled) : list VideoResult :=
  flat_map (fun f => match snd f with
                     | Val (Some r) => [r]
                     | _ => []
                     end) fs.

Definition initial_world : World :=
  {| global_person_counter := new_counter; interleaved := []; log := [] |}.

(* ================================================================= *)
(** ** The worker's loop, told from the video

    These definitions do not come from the code.  They read the frames of
    a video the way the description of the worker does: which tracked
    boxes are met on sampled frames, which of them are attempts at a new
    person, and which attempts end in a record. *)

Definition sampling_stride : nat := 10.

(** A tracked box met on a sampled frame. *)
Record Occurrence := {
  at_frame : nat;        (* 1-based decode index of the frame *)
  in_frame : Frame;
  the_box : Box;
  the_id : Z
}.

Definition result_pairs (r : Result) : list (Box * Z) :=
  match boxes r with
  | Some bs => match id bs with
               | Some ids => combine (items bs) ids
               | None => []
               end
  | None => []
  end.

Definition frame_pairs (fr : Frame) : list (Box * Z) :=
  match track_answer fr with
  | Val results => flat_map result_pairs results
  | Exc _ => []
  end.

Definition occurrences_in (n : nat) (fr : Frame) : list Occurrence :=
  map (fun bt => {| at_frame := n; in_frame := fr;
                    the_box := fst bt; the_id := snd bt |})
      (frame_pairs fr).

(** Occurrences on the frames that follow the first [n] decoded ones. *)
Fixpoint occurrences_from (n : nat) (fs : list Frame) : list Occurrence :=
  match fs with
  | [] => []
  | fr :: rest =>
      (if S n mod sampling_stride =? 0 then occurrences_in (S n) fr else [])
      ++ occurrences_from (S n) rest
  end.

Definition occurrences (s : Stream) : list Occurrence :=
  occurrences_from 0 (frames s).

(** class = person and confidence > 0.4 *)
Definition qualifying (o : Occurrence) : bool := is_confident_person (the_box o).

(** both crop dimensions at least 50 pixels *)
Definition adequate (o : Occurrence) : bool := negb (too_small (in_frame o) (the_box o)).

Definition known (t : Z) (seen : list Z) : bool := existsb (Z.eqb t) seen.

(** An attempt: a qualifying occurrence of a track id that has no record
    yet.  It takes the next local number and the next global number;
    it is [kept] when its crop is adequate. *)
Record Attempt := {
  occ : Occurrence;
  local_no : nat;
  global_no : nat;
  kept : bool
}.

(** The attempts on a list of occurrences, given the track ids that have
    a record ([seen]), the local count [c], the counter value [g] and
    the calls of other workers. *)
Fixpoint attempts (seen : list Z) (c g : nat) (others : list nat)
    (occs : list Occurrence) : list Attempt :=
  match occs with
  | [] => []
  | o :: rest =>
      if qualifying o && negb (known (the_id o) seen) then
        let g' := g + hd 0 others + 1 in
        {| occ := o; local_no := c + 1; global_no := g'; kept := adequate o |}
        :: attempts (if adequate o then seen ++ [the_id o] else seen)
                    (c + 1) g' (tl others) rest
      else attempts seen c g others rest
  end.

(** The first qualifying occurrence of track id [t] with an adequate crop. *)
Definition first_kept (t : Z) (occs : list Occurrence) : option Occurrence :=
  find (fun o => Z.eqb (the_id o) t && qualifying o && adequate o) occs.

(** What a record says about where it comes from and how it is numbered. *)
Definition origin (d : DetectionRecord) : Z * nat * Q * (Z * Z * Z * Z) :=
  (track_id d, first_detected_frame d, person_confidence d, bounding_box d).

Definition origin_of (o : Occurrence) : Z * nat * Q * (Z * Z * Z * Z) :=
  (the_id o, at_frame o, conf (the_box o), xyxy (the_box o)).

Definition numbers (d : DetectionRecord) : nat * nat :=
  (local_person_number d, global_person_number d).

Definition numbers_of (a : Attempt) : nat * nat := (local_no a, global_no a).

Definition rejected (a : Attempt) : bool := negb (kept a).

Definition has_id (t : Z) (d : DetectionRecord) : bool := Z.eqb (track_id d) t.

Definition is_track (e : Event) : bool :=
  match e with Track _ => true | _ => false end.

Definition is_write (e : Event) : bool :=
  match e with Imwrite _ _ | JsonDump _ _ => true | _ => false end.

Definition is_release (e : Event) : bool :=
  match e with Release => true | _ => false end.

(** The frames offered to [person_model.track], in order. *)
Definition track_calls (evs : list Event) : list nat :=
  flat_map (fun e => match e with Track n => [n] | _ => [] end) evs.

(* ================================================================= *)
(** ** Notions used in the statements and proofs *)

(** The events a program adds to the log. *)
Definition added (w w' : World) : list Event :=
  skipn (length (log w)) (log w').

(** [emits P m]: whatever [m] does, it only appends to the log, and only
    events that satisfy [P]. *)
Definition emits {A} (P : Event -> Prop) (m : M A) : Prop :=
  forall w, exists evs,
    log (snd (m w)) = log w ++ evs /\ Forall P evs.

(** Events of the handling of one box: the t-shirt model and the images. *)
Definition box_event (e : Event) : Prop :=
  match e with
  | Classify _ _ | Imwrite _ _ => True
  | _ => False
  end.

(** What the attempts depend on: the ids with a record, the local
    count, the counter as last seen, and the calls of other workers. *)
Definition progress : Type := list Z * nat * nat * list nat.

Definition progress_of (l : Locals) (w : World) : progress :=
  (dict_keys (tracked_people l), local_person_count l,
   _value (global_person_counter w), interleaved w).

Definition attempts_at (p : progress) (occs : list Occurrence) : list Attempt :=
  let '(seen, c, g, others) := p in attempts seen c g others occs.

Definition after (p : progress) (a : Attempt) : progress :=
  let '(seen, c, g, others) := p in
  (if kept a then seen ++ [the_id (occ a)] else seen,
   local_no a, global_no a, tl others).

Definition after_all (p : progress) (atts : list Attempt) : progress :=
  fold_left after atts p.

(** The link between a run of the loop on [occs], from [(l, w)] to
    [(l', w')], and the attempts on [occs]. *)
Definition refines (occs : list Occurrence) (l : Locals) (w : World)
    (l' : Locals) (w' : World) : Prop :=
  let atts := attempts_at (progress_of l w) occs in
  progress_of l' w' = after_all (progress_of l w) atts
  /\ map origin (detection_results l') =
     map origin (detection_results l)
     ++ map (fun a => origin_of (occ a)) (filter kept atts)
  /\ map numbers (detection_results l') =
     map numbers (detection_results l) ++ map numbers_of (filter kept atts).

Definition occurrence (n : nat) (fr : Frame) (bt : Box * Z) : Occurrence :=
  {| at_frame := n; in_frame := fr; the_box := fst bt; the_id := snd bt |}.

Definition logged (evs : list Event) (w : World) : World :=
  {| global_person_counter := global_person_counter w;
     interleaved := interleaved w;
     log := log w ++ evs |}.

(** The world when the frame loop starts. *)
Definition opened (v : Video) (out : string) (w : World) : World :=
  logged [Makedirs (video_output_dir out v); LoadModels; Open (video_path v)] w.

Definition id_of (a : Attempt) : Z := the_id (occ a).

(** The counter after a list of attempts. *)
Definition counter_after (g : nat) (atts : list Attempt) : nat :=
  last (map global_no atts) g.

(** Rejected attempts before the first kept one. *)
Fixpoint leading_rejections (atts : list Attempt) : nat :=
  match atts with
  | [] => 0
  | a :: rest => if kept a then 0 else S (leading_rejections rest)
  end.

(** [max_workers] as the pool gets it. *)
Definition workers_used (video_paths : list string) (max_workers : option Z)
    (cpu_count : option nat) : Z :=
  match max_workers with
  | None => default_workers video_paths cpu_count
  | Some m => m
  end.

(** [combined_results], from the list the collecting loop built. *)
Definition combined (video_paths : list string) (max_workers : option Z)
    (cpu_count : option nat) (all_results : list VideoResult) : CombinedResult :=
  {| processing_summary :=
       {| total_videos_processed := length all_results;
          total_videos_requested := length video_paths;
          max_workers_used := workers_used video_paths max_workers cpu_count;
          total_people_detected_across_all_videos :=
            list_sum (map total_unique_people_detected all_results) |};
     individual_video_results := all_results |}.

(** A future whose worker returned a result. *)
Definition succeeded (f : Settled) : bool :=
  match snd f with
  | Val (Some _) => true
  | _ => false
  end.

(** A future that [except Exception] can deal with. *)
Definition catchable (f : Settled) : bool :=
  match snd f with
  | Exc e => is_Exception e
  | _ => true
  end.

(** What every worker does before it looks at the stream. *)
Definition preamble (v : Video) (out : string) : list Event :=
  [Makedirs (video_output_dir out v); LoadModels; Open (video_path v)].

(** Events of the frame loop: the two models and the images. *)
Definition loop_event (e : Event) : Prop :=
  match e with
  | Track _ | Classify _ _ | Imwrite _ _ => True
  | _ => False
  end.

(** The multiples of the stride among the [k] frame numbers after [n]. *)
Definition sampled_from (n k : nat) : list nat :=
  filter (fun i => i mod sampling_stride =? 0) (seq (S n) k).

(** The first occurrence of track id [t] that qualifies, whatever its crop. *)
Definition first_qualifying (t : Z) (occs : list Occurrence) : option Occurrence :=
  find (fun o => Z.eqb (the_id o) t && qualifying o) occs.

(** The sampled frames on which track id [t] qualifies. *)
Definition frames_with (t : Z) (occs : list Occurrence) : list nat :=
  nodup Nat.eq_dec
    (map at_frame (filter (fun o => Z.eqb (the_id o) t && qualifying o) occs)).

(* ================================================================= *)
(** ** Sample videos *)

Module Sample.

Definition tshirt_found : TshirtResult :=
  {| tshirt_boxes := Some [ {| tshirt_conf := 7 # 8; tshirt_cls := 2 |};
                            {| tshirt_conf := 1 # 8; tshirt_cls := 5 |} ];
     names := Some [(2%Z, "tshirt"%string)];
     plot := Val true;
     plot_again := Val tt |}.

(** A confident person in the given corners. *)
Definition person (x1 y1 x2 y2 : Z) : Box :=
  {| conf := 3 # 4; cls := 0; xyxy := (x1, y1, x2, y2);
     tshirt_answer := Val tshirt_found; now := 0;
     person_write := Val tt; annotated_write := Val tt |}.

Definition near : Box := person 100 100 300 400.   (* crop 300 x 200 *)
Definition far : Box := person 100 100 130 180.    (* crop 80 x 30 *)
Definition unsure : Box :=
  {| conf := 1 # 4; cls := 0; xyxy := (100, 100, 300, 400)%Z;
     tshirt_answer := Val tshirt_found; now := 0;
     person_write := Val tt; annotated_write := Val tt |}.

(** A frame of 480 x 640 on which [track] finds the given boxes. *)
Definition showing (bts : list (Box * Z)) : Frame :=
  {| shape := (480, 640);
     track_answer :=
       Val [ {| boxes := Some {| items := map fst bts;
                                 id := Some (map snd bts) |} |} ];
     clock := 0 |}.

Definition nobody : Frame :=
  {| shape := (480, 640);
     track_answer := Val [ {| boxes := Some {| items := []; id := None |} |} ];
     clock := 0 |}.

(** A frame on which [track] raises. *)
Definition broken : Frame :=
  {| shape := (480, 640);
     track_answer := Exc (Fault "RuntimeError" true);
     clock := 0 |}.

(** Nine frames of nobody before each given frame: the given frames are
    the sampled ones. *)
Definition sampled (frs : list Frame) : list Frame :=
  flat_map (fun fr => repeat nobody 9 ++ [fr]) frs.

Definition video (name : string) (frs : list Frame) : Video :=
  {| video_path := (name ++ ".mp4")%string;
     stem := name;
     capture := Some {| fps := 25;
                        total_frames := Z.of_nat (length frs);
                        start_clock := 0;
                        frames := frs |} |}.

Definition missing (name : string) : Video :=
  {| video_path := (name ++ ".mp4")%string; stem := name; capture := None |}.

(** Track 7 on the first and the third sampled frame, near both times. *)
Definition seen_twice : Video :=
  video "twice" (sampled [showing [(near, 7%Z)]; nobody; showing [(near, 7%Z)]]).

(** Track 7 far away on the first sampled frame, near on the third. *)
Definition far_then_near : Video :=
  video "approach" (sampled [showing [(far, 7%Z)]; nobody; showing [(near, 7%Z)]]).

(** Track 7 far away on [k] sampled frames. *)
Definition always_far (k : nat) : Video :=
  video "far" (sampled (repeat (showing [(far, 7%Z)]) k)).

(** Two people, then three. *)
Definition two_people : Video :=
  video "a" (sampled [showing [(near, 1%Z); (near, 2%Z)]]).

Definition three_people : Video :=
  video "b" (sampled [showing [(near, 1%Z)]; showing [(near, 2%Z); (near, 3%Z)]]).

(** The tracker fails on the second sampled frame. *)
Definition breaks : Video :=
  video "broken" (sampled [showing [(near, 1%Z)]; broken]).

(** Somebody on the tenth frame of a stream that reports no frame count,
    six seconds after the start. *)
Definition no_frame_count : Video :=
  {| video_path := "live.mp4"; stem := "live";
     capture := Some {| fps := 25; total_frames := 0; start_clock := 0;
                        frames := repeat nobody 9
                                  ++ [ {| shape := (480, 640);
                                          track_answer := track_answer (showing [(near, 1%Z)]);
                                          clock := 6 |} ] |} |}.

(** A person the tracker is not sure of, and one who is sure. *)
Definition one_unsure : Video :=
  video "unsure" (sampled [showing [(unsure, 4%Z); (near, 5%Z)]]).

(** A person far away whose confidence is the float32 nearest to 0.4,
    the value the threshold itself is rounded to. *)
Definition borderline : Box :=
  {| conf := float32_0_4; cls := 0; xyxy := (100, 100, 130, 180)%Z;
     tshirt_answer := Val tshirt_found; now := 0;
     person_write := Val tt; annotated_write := Val tt |}.

(** That person with track 7, next to a sure one with track 8. *)
Definition borderline_then_sure : Video :=
  video "border" (sampled [showing [(borderline, 7%Z); (near, 8%Z)]]).

(** A t-shirt whose confidence is the float32 nearest to 0.3. *)
Definition tshirt_borderline : TshirtResult :=
  {| tshirt_boxes := Some [ {| tshirt_conf := float32_0_3; tshirt_cls := 2 |} ];
     names := Some [(2%Z, "tshirt"%string)];
     plot := Val true;
     plot_again := Val tt |}.

Definition result_of (v : Video) : Res (option VideoResult) :=
  fst (process_single_video v "out" initial_world).

Definition records_of (v : Video) : list DetectionRecord :=
  match result_of v with
  | Val (Some r) => summary_detection_results r
  | _ => []
  end.

End Sample.

(* ================================================================= *)
(** ** The main block *)




(* ================================================================= *)
(** ** Further notions *)


Definition is_json (e : Event) : bool :=
  match e with JsonDump _ _ => true | _ => false end.

Definition is_box_event (e : Event) : bool :=
  match e with Classify _ _ | Imwrite _ _ => true | _ => false end.

(** The outside calls that go with one record: the t-shirt model on its
    crop, its image, its annotated image when there is one. *)
Definition record_events (dir : Path) (d : DetectionRecord) : list Event :=
  Classify (first_detected_frame d) (track_id d)
  :: Imwrite dir (person_image d)
  :: match annotated_image d with
     | Some f => [Imwrite dir f]
     | None => []
     end.

(** The files written by [cv2.imwrite], in order. *)
Definition image_writes (evs : list Event) : list (Path * FileName) :=
  flat_map (fun e => match e with Imwrite p f => [(p, f)] | _ => [] end) evs.

Definition images_of (dir : Path) (d : DetectionRecord) : list (Path * FileName) :=
  (dir, person_image d)
  :: match annotated_image d with
     | Some f => [(dir, f)]
     | None => []
     end.

(** The fields of a record that are fixed by its other fields. *)
Definition well_formed (v : Video) (d : DetectionRecord) : Prop :=
  video_file d = stem v
  /\ person_image d =
     person_global_ (global_person_number d) (track_id d)
       (first_detected_frame d) (timestamp d)
  /\ (annotated_image d = None
      \/ annotated_image d =
         Some (annotated_global_ (global_person_number d) (track_id d)
                 (first_detected_frame d) (timestamp d)))
  /\ Forall (fun p => Qgtb (snd p) (3 # 10) = true) (tshirt_detections d).

(** The global number in the name of an image file. *)
Definition global_in_name (f : FileName) : option nat :=
  match f with
  | person_global_ g _ _ _ | annotated_global_ g _ _ _ => Some g
  | _ => None
  end.

(** The global numbers in the records of a list of results. *)
Definition global_numbers_of (rs : list VideoResult) : list nat :=
  flat_map (fun r => map global_person_number (summary_detection_results r)) rs.

(** How the variables of the loop stand after [k] frames that are not
    sampled. *)
Definition skip_frames (k : nat) (l : Locals) : Locals :=
  Nat.iter k next_frame l.

(** What a stretch of the loop adds: records, and outside calls, those
    for boxes being the calls that go with the new records. *)
Definition grows (dir : Path) (v : Video) (l : Locals) (w : World)
    (l' : Locals) (w' : World) : Prop :=
  exists new evs,
    detection_results l' = detection_results l ++ new
    /\ log w' = log w ++ evs
    /\ filter is_box_event evs = flat_map (record_events dir) new
    /\ Forall (well_formed v) new.

(** The crop of a box given by its corners is at least 50 by 50. *)
Definition large_enough (fr : Frame) (corners : Z * Z * Z * Z) : Prop :=
  let '(x1, y1, x2, y2) := corners in
  50 <= slice_len (fst (shape fr)) y1 y2
  /\ 50 <= slice_len (snd (shape fr)) x1 x2.

(** A program that, however it ends, never moves the counter back and,
    when no other worker is around, leaves it so. *)
Definition quiet {A} (m : M A) : Prop :=
  forall w,
    _value (global_person_counter w) <= _value (global_person_counter (snd (m w)))
    /\ (interleaved w = [] -> interleaved (snd (m w)) = []).

Module Counter2.
Import Counter.

(** The threads inside the [with] block. *)
Definition inside (l : list pc) : list pc := filter critical l.

(** The seven moves of one call of [increment] by thread [t]. *)
Definition one_call (t : nat) : list nat := repeat t 7.

(** Where a thread that is not kept waiting is after its next move. *)
Definition next_pc (s : state) (p : pc) : pc :=
  match p with
  | Idle => Entering
  | Entering => Locked
  | Locked => Loaded (_value (counter s))
  | Loaded _ => Stored
  | Stored => Leaving (_value (counter s))
  | Leaving r => Returning r
  | Returning _ => Idle
  end.

(** The moves a thread has to make until its value is with its caller. *)
Definition moves_to_return (p : pc) : nat :=
  match p with
  | Idle => 7
  | Entering => 6
  | Locked => 5
  | Loaded _ => 4
  | Stored => 3
  | Leaving _ => 2
  | Returning _ => 1
  end.

(** The moves the holder of the lock has to make until it is free. *)
Definition moves_to_release (p : pc) : nat :=
  match p with
  | Locked => 4
  | Loaded _ => 3
  | Stored => 2
  | Leaving _ => 1
  | _ => 0
  end.

(** What a move of a thread in place [p] hands to its caller. *)
Definition handed_over (t : nat) (p : pc) : list (nat * nat) :=
  match p with
  | Returning r => [(t, r)]
  | _ => []
  end.

End Counter2.

(* ================================================================= *)
(** * Properties *)

(** ** The counter under any schedule *)

Section CounterInvariant.
Import Counter.

Lemma nth_error_upd_same t p l q :
  nth_error l t = Some q -> nth_error (upd t p l) t = Some p.
Proof.
  revert t; induction l as [|a l IH]; intros [|t] H; simpl in *;
    try discriminate; auto.
Qed.

Lemma nth_error_upd_other t t' p l :
  t <> t' -> nth_error (upd t p l) t' = nth_error l t'.
Proof.
  revert t t'; induction l as [|a l IH]; intros [|t] [|t'] H; simpl;
    try reflexivity; try congruence.
  apply IH; congruence.
Qed.

Lemma outstanding_upd t p l q :
  nth_error l t = Some q ->
  Permutation (outstanding (upd t p l) ++ pending q) (outstanding l ++ pending p).
Proof.
  unfold outstanding.
  revert t; induction l as [|a l IH]; intros [|t] H; simpl in *; try discriminate.
  - injection H as ->.
    rewrite <- !app_assoc.
    transitivity (pending p ++ pending q ++ flat_map pending l).
    + apply Permutation_app_head, Permutation_app_comm.
    + rewrite (Permutation_app_comm (pending p)), <- app_assoc. reflexivity.
  - rewrite <- !app_assoc. apply Permutation_app_head. apply IH, H.
Qed.

Lemma outstanding_upd_silent t p l q :
  nth_error l t = Some q -> pending q = [] -> pending p = [] ->
  Permutation (outstanding (upd t p l)) (outstanding l).
Proof.
  intros H Hq Hp. pose proof (outstanding_upd t p l q H) as P.
  rewrite Hq, Hp, !app_nil_r in P. exact P.
Qed.

Lemma inv_init workers : inv (init workers).
Proof.
  unfold inv, init; simpl. repeat split.
  - unfold outstanding. induction workers; simpl; auto.
  - intros t p H. apply nth_error_In, repeat_spec in H. subst. reflexivity.
Qed.

Lemma seq_snoc n : seq 1 (S n) = seq 1 n ++ [S n].
Proof. rewrite seq_S. reflexivity. Qed.

Lemma inv_step t s : inv s -> inv (step t s).
Proof.
  intros (Hseq & Hperm & Hlock). unfold step.
  destruct (nth_error (pcs s) t) as [p|] eqn:Hp; [|repeat split; assumption].
  assert (Hsplit : forall q t' p',
            nth_error (upd t q (pcs s)) t' = Some p' ->
            t' = t /\ p' = q \/ t' <> t /\ nth_error (pcs s) t' = Some p').
  { intros q t' p' H. destruct (Nat.eq_dec t t') as [->|Hne].
    - rewrite (nth_error_upd_same _ _ _ _ Hp) in H. injection H as <-. auto.
    - rewrite nth_error_upd_other in H by assumption. right; split; auto. }
  assert (Hholder : forall h, lock s = Some h -> critical p = true -> t = h).
  { intros h Hh Hc. rewrite Hh in Hlock. destruct Hlock as [U _]. eauto. }
  destruct p; simpl.
  - (* Idle: the call starts *)
    unfold inv; simpl. split; [assumption|]. split.
    + rewrite (outstanding_upd_silent _ _ _ _ Hp); auto.
    + destruct (lock s) as [h|].
      * destruct Hlock as [U (p & Hh & Hok)]. split.
        -- intros t' p' H Hc. apply Hsplit in H as [[-> ->]|[Hne H]];
             [discriminate|eauto].
        -- assert (h <> t) by (intros ->; rewrite Hp in Hh; injection Hh as <-;
                               exact Hok).
           exists p. rewrite nth_error_upd_other by auto. split; auto.
      * destruct Hlock as [U V]. split; [|assumption].
        intros t' p' H. apply Hsplit in H as [[-> ->]|[Hne H]]; eauto.
  - (* Entering: take the lock or wait *)
    destruct (lock s) as [h|] eqn:Hl.
    + unfold inv. rewrite Hl. auto.
    + unfold inv; simpl. split; [assumption|]. split.
      * rewrite (outstanding_upd_silent _ _ _ _ Hp); auto.
      * destruct Hlock as [U V]. split.
        -- intros t' p' H Hc. apply Hsplit in H as [[-> ->]|[Hne H]]; auto.
           apply U in H. congruence.
        -- exists Locked. rewrite (nth_error_upd_same _ _ _ _ Hp). split; auto.
  - (* Locked: read for += *)
    destruct (lock s) as [h|] eqn:Hl;
      [|destruct Hlock as [U _]; apply U in Hp; discriminate].
    assert (t = h) by (apply Hholder; auto). subst h.
    destruct Hlock as [U (p & Hh & Hok)]. rewrite Hp in Hh. injection Hh as <-.
    unfold inv, set_pc; simpl. try rewrite Hl. split; [assumption|]. split.
    + rewrite (outstanding_upd_silent _ _ _ _ Hp); auto.
    + split.
      * intros t' p' H Hc. apply Hsplit in H as [[-> ->]|[Hne H]]; eauto.
      * exists (Loaded (_value (counter s))).
        rewrite (nth_error_upd_same _ _ _ _ Hp). simpl in *. auto.
  - (* Loaded: write *)
    destruct (lock s) as [h|] eqn:Hl;
      [|destruct Hlock as [U _]; apply U in Hp; discriminate].
    assert (t = h) by (apply Hholder; auto). subst h.
    destruct Hlock as [U (p & Hh & Hok)]. rewrite Hp in Hh. injection Hh as <-.
    unfold inv; simpl. try rewrite Hl. split; [assumption|]. split.
    + rewrite (outstanding_upd_silent _ _ _ _ Hp); auto.
    + split.
      * intros t' p' H Hc. apply Hsplit in H as [[-> ->]|[Hne H]]; eauto.
      * exists Stored. rewrite (nth_error_upd_same _ _ _ _ Hp).
        simpl in *. split; auto. lia.
  - (* Stored: read the return value *)
    destruct (lock s) as [h|] eqn:Hl;
      [|destruct Hlock as [U _]; apply U in Hp; discriminate].
    assert (t = h) by (apply Hholder; auto). subst h.
    destruct Hlock as [U (p & Hh & Hok)]. rewrite Hp in Hh. injection Hh as <-.
    simpl in Hok.
    unfold inv; simpl. try rewrite Hl. rewrite length_app. cbn [length].
    rewrite Nat.add_1_r.
    split; [|split; [|split]].
    + rewrite seq_snoc, Hok. f_equal. exact Hseq.
    + pose proof (outstanding_upd t (Leaving (_value (counter s))) _ _ Hp) as P.
      simpl in P. rewrite app_nil_r in P.
      rewrite P, app_assoc. apply Permutation_app_tail, Hperm.
    + intros t' p' H Hc. apply Hsplit in H as [[-> ->]|[Hne H]]; eauto.
    + exists (Leaving (_value (counter s))).
      rewrite (nth_error_upd_same _ _ _ _ Hp). simpl. rewrite length_app; simpl. split; [reflexivity|lia].
  - (* Leaving: give the lock back *)
    destruct (lock s) as [h|] eqn:Hl;
      [|destruct Hlock as [U _]; apply U in Hp; discriminate].
    assert (t = h) by (apply Hholder; auto). subst h.
    destruct Hlock as [U (p & Hh & Hok)]. rewrite Hp in Hh. injection Hh as <-.
    simpl in Hok.
    unfold inv; simpl. split; [assumption|]. split; [|split; [|assumption]].
    + pose proof (outstanding_upd t (Returning r) _ _ Hp) as P. simpl in P.
      apply Permutation_app_inv_r in P. rewrite P. exact Hperm.
    + intros t' p' H. apply Hsplit in H as [[-> ->]|[Hne H]]; auto.
      destruct (critical p') eqn:Hc; auto. apply U in H; auto. congruence.
  - (* Returning: the caller gets its value *)
    unfold inv; simpl. split; [assumption|]. split.
    + pose proof (outstanding_upd t Idle _ _ Hp) as P. simpl in P.
      rewrite app_nil_r in P. rewrite map_app; simpl.
      rewrite <- app_assoc, <- Hperm.
      apply Permutation_app_head. rewrite <- P. apply Permutation_app_comm.
    + destruct (lock s) as [h|].
      * destruct Hlock as [U (p & Hh & Hok)]. split.
        -- intros t' p' H Hc. apply Hsplit in H as [[-> ->]|[Hne H]];
             [discriminate|eauto].
        -- assert (h <> t) by (intros ->; rewrite Hp in Hh; injection Hh as <-;
                               exact Hok).
           exists p. rewrite nth_error_upd_other by auto. split; auto.
      * destruct Hlock as [U V]. split; [|assumption].
        intros t' p' H. apply Hsplit in H as [[-> ->]|[Hne H]]; eauto.
Qed.

Lemma inv_run schedule : forall s, inv s -> inv (run schedule s).
Proof.
  unfold run. induction schedule as [|t sch IH]; intros s H; simpl; auto.
  apply IH, inv_step, H.
Qed.

End CounterInvariant.

(** ** Running programs: inversion of [bind] and of loops *)

Lemma bind_Val {A B} (m : M A) (k : A -> M B) w b w' :
  bind m k w = (Val b, w') ->
  exists a w1, m w = (Val a, w1) /\ k a w1 = (Val b, w').
Proof.
  unfold bind. destruct (m w) as [[a|e] w1]; intros H; [eauto|discriminate].
Qed.

Lemma added_app w w' evs : log w' = log w ++ evs -> added w w' = evs.
Proof.
  unfold added. intros ->. rewrite skipn_app, skipn_all, Nat.sub_diag. reflexivity.
Qed.

Lemma emits_ret {A} P (a : A) : emits P (ret a).
Proof. intros w. exists []. simpl. rewrite app_nil_r. auto. Qed.

Lemma emits_raise {A} P e : emits P (@raise A e).
Proof. intros w. exists []. simpl. rewrite app_nil_r. auto. Qed.

Lemma emits_emit (P : Event -> Prop) e : P e -> emits P (emit e).
Proof. intros H w. exists [e]. simpl. auto. Qed.

Lemma emits_increment P : emits P global_increment.
Proof. intros w. exists []. simpl. rewrite app_nil_r. auto. Qed.

Lemma emits_bind {A B} P (m : M A) (k : A -> M B) :
  emits P m -> (forall a, emits P (k a)) -> emits P (bind m k).
Proof.
  intros Hm Hk w. unfold bind.
  destruct (Hm w) as (e1 & L1 & F1).
  destruct (m w) as [[a|e] w1]; simpl in *.
  - destruct (Hk a w1) as (e2 & L2 & F2).
    exists (e1 ++ e2). rewrite L2, L1, app_assoc. split; auto.
    apply Forall_app; auto.
  - exists e1. auto.
Qed.

Lemma emits_call {A} (P : Event -> Prop) e (answer : Res A) :
  P e -> emits P (call e answer).
Proof.
  intros H. unfold call. apply emits_bind; [apply emits_emit, H|].
  intros _. destruct answer; [apply emits_ret|apply emits_raise].
Qed.

Lemma emits_answer {A} P (r : Res A) : emits P (answer r).
Proof. destruct r; [apply emits_ret|apply emits_raise]. Qed.

Lemma emits_for_each {A S} P (body : A -> S -> M S) xs :
  (forall x s, emits P (body x s)) -> forall s, emits P (for_each body xs s).
Proof.
  intros H. induction xs as [|x xs IH]; intros s; simpl.
  - apply emits_ret.
  - apply emits_bind; auto.
Qed.

Lemma emits_process_box out v fr bt l : emits box_event (process_box out v fr bt l).
Proof.
  unfold process_box. destruct bt as [box tid].
  destruct (is_confident_person box); [|apply emits_ret].
  destruct (dict_mem tid (tracked_people l)); [apply emits_ret|].
  apply emits_bind; [apply emits_increment|]. intros g.
  destruct (too_small fr box); [apply emits_ret|].
  apply emits_bind; [apply emits_call; exact I|]. intros t.
  apply emits_bind; [apply emits_call; exact I|]. intros _.
  apply emits_bind; [apply emits_answer|]. intros plotted.
  apply emits_bind; [|intros; apply emits_ret].
  destruct plotted; [|apply emits_ret].
  apply emits_bind; [apply emits_answer|]. intros _.
  apply emits_bind; [apply emits_call; exact I|]. intros _. apply emits_ret.
Qed.

Lemma emits_process_result out v fr r l :
  emits box_event (process_result out v fr r l).
Proof.
  unfold process_result. destruct (boxes r) as [bs|]; [|apply emits_ret].
  destruct (id bs); [|apply emits_ret].
  apply emits_for_each. intros. apply emits_process_box.
Qed.

(** ** The loop of the worker refines the attempts of the video *)

Lemma attempts_at_app p a b :
  attempts_at p (a ++ b) =
  attempts_at p a ++ attempts_at (after_all p (attempts_at p a)) b.
Proof.
  revert p. induction a as [|o a IH]; intros [[[seen c] g] others]; simpl.
  - reflexivity.
  - destruct (qualifying o && negb (known (the_id o) seen)).
    + simpl. f_equal.
      specialize (IH (if adequate o then seen ++ [the_id o] else seen,
                      c + 1, g + hd 0 others + 1, tl others)).
      simpl in IH. exact IH.
    + apply (IH (seen, c, g, others)).
Qed.

Lemma after_all_app p a b : after_all p (a ++ b) = after_all (after_all p a) b.
Proof. unfold after_all. apply fold_left_app. Qed.

Lemma dict_mem_known {V} (k : Z) (d : dict V) :
  dict_mem k d = known k (dict_keys d).
Proof.
  induction d as [|[k' v] d IH]; simpl; [reflexivity|].
  destruct (Z.eqb k k'); simpl; auto.
Qed.

Lemma dict_keys_set_new {V} (k : Z) (v : V) (d : dict V) :
  dict_mem k d = false -> dict_keys (dict_set k v d) = dict_keys d ++ [k].
Proof.
  induction d as [|[k' v'] d IH]; simpl; [reflexivity|].
  destruct (Z.eqb k k'); [discriminate|]. intros H. simpl. f_equal. auto.
Qed.

Lemma others_increment_value n c :
  _value (others_increment n c) = _value c + n.
Proof.
  unfold others_increment. induction n as [|n IH]; [simpl; lia|].
  rewrite Nat.iter_succ. unfold increment at 1. cbn [snd _value].
  rewrite IH. lia.
Qed.

Lemma refines_nil l w l' w' :
  progress_of l' w' = progress_of l w ->
  detection_results l' = detection_results l ->
  refines [] l w l' w'.
Proof.
  intros Hp Hd. unfold refines.
  destruct (progress_of l w) as [[[seen c] g] others] eqn:E. simpl.
  rewrite Hd, !app_nil_r. auto.
Qed.

Lemma refines_trans a b l1 w1 l2 w2 l3 w3 :
  refines a l1 w1 l2 w2 -> refines b l2 w2 l3 w3 ->
  refines (a ++ b) l1 w1 l3 w3.
Proof.
  unfold refines. intros (P1 & O1 & N1) (P2 & O2 & N2).
  rewrite attempts_at_app, after_all_app, <- P1, P2.
  rewrite filter_app, !map_app, O2, N2, O1, N1, !app_assoc. auto.
Qed.

Lemma refines_from occs l w l0 w0 l' w' :
  progress_of l w = progress_of l0 w0 ->
  detection_results l = detection_results l0 ->
  refines occs l w l' w' -> refines occs l0 w0 l' w'.
Proof. unfold refines. intros -> ->. auto. Qed.

Section Refinement.

Variables (out : string) (v : Video).

(** A step that leaves the variables and the world as they are. *)
Ltac unchanged :=
  let H := fresh in
  intros H; injection H as <- <-; split; [apply refines_nil|]; reflexivity.

Lemma process_box_refines fr bt l w l' w' :
  process_box out v fr bt l w = (Val l', w') ->
  refines [occurrence (frame_number l) fr bt] l w l' w'
  /\ frame_number l' = frame_number l.
Proof.
  destruct bt as [box tid]. unfold process_box, refines, progress_of.
  simpl. unfold qualifying, adequate. simpl.
  rewrite <- dict_mem_known.
  destruct (is_confident_person box); simpl;
    [|intros H; injection H as <- <-; rewrite !app_nil_r; auto].
  destruct (dict_mem tid (tracked_people l)) eqn:Hmem; simpl;
    [intros H; injection H as <- <-; rewrite !app_nil_r; auto|].
  unfold bind, global_increment, increment. simpl.
  rewrite others_increment_value.
  destruct (too_small fr box); simpl.
  - intros H; injection H as <- <-. simpl. rewrite !app_nil_r. auto.
  - unfold call, answer, bind, emit, ret, raise. simpl.
    destruct (tshirt_answer box) as [t|e]; [|discriminate].
    destruct (person_write box) as [[]|e]; [|discriminate].
    destruct (plot t) as [[|]|e]; simpl; [| |discriminate].
    + destruct (plot_again t) as [[]|e]; [|discriminate].
      destruct (annotated_write box) as [[]|e]; [|discriminate].
      simpl; intros H; injection H as <- <-; simpl.
      rewrite dict_keys_set_new by assumption.
      rewrite !map_app; simpl; auto.
    + intros H; injection H as <- <-; simpl.
      rewrite dict_keys_set_new by assumption.
      rewrite !map_app; simpl; auto.
Qed.

Lemma boxes_loop_refines fr bts : forall l w l' w',
  for_each (process_box out v fr) bts l w = (Val l', w') ->
  refines (map (occurrence (frame_number l) fr) bts) l w l' w'
  /\ frame_number l' = frame_number l.
Proof.
  induction bts as [|bt bts IH]; intros l w l' w' H; simpl in *.
  - injection H as <- <-. split; [apply refines_nil|]; reflexivity.
  - apply bind_Val in H as (l1 & w1 & H1 & H2).
    apply process_box_refines in H1 as [R1 F1].
    apply IH in H2 as [R2 F2]. rewrite F1 in R2. split; [|congruence].
    exact (refines_trans [_] _ _ _ _ _ _ _ R1 R2).
Qed.

Lemma process_result_refines fr r l w l' w' :
  process_result out v fr r l w = (Val l', w') ->
  refines (map (occurrence (frame_number l) fr) (result_pairs r)) l w l' w'
  /\ frame_number l' = frame_number l.
Proof.
  unfold process_result, result_pairs.
  destruct (boxes r) as [bs|]; [destruct (id bs) as [ids|]|].
  - apply boxes_loop_refines.
  - unchanged.
  - unchanged.
Qed.

Lemma results_loop_refines fr rs : forall l w l' w',
  for_each (process_result out v fr) rs l w = (Val l', w') ->
  refines (map (occurrence (frame_number l) fr) (flat_map result_pairs rs))
    l w l' w'
  /\ frame_number l' = frame_number l.
Proof.
  induction rs as [|r rs IH]; intros l w l' w' H; simpl in *.
  - injection H as <- <-. split; [apply refines_nil|]; reflexivity.
  - apply bind_Val in H as (l1 & w1 & H1 & H2).
    apply process_result_refines in H1 as [R1 F1].
    apply IH in H2 as [R2 F2]. rewrite F1 in R2. split; [|congruence].
    rewrite map_app. exact (refines_trans _ _ _ _ _ _ _ _ R1 R2).
Qed.

Lemma report_progress_Val s fr l w l' w' :
  report_progress s fr l w = (Val l', w') ->
  w' = w /\ detection_results l' = detection_results l
  /\ tracked_people l' = tracked_people l
  /\ local_person_count l' = local_person_count l
  /\ frame_number l' = frame_number l.
Proof.
  unfold report_progress. destruct (Qle_bool _ _).
  - destruct (Z.eqb _ _); [discriminate|].
    intros H; injection H as <- <-. simpl. auto.
  - intros H; injection H as <- <-. auto.
Qed.

Lemma call_Val {A} e (answer : Res A) w a w' :
  call e answer w = (Val a, w') ->
  answer = Val a
  /\ global_person_counter w' = global_person_counter w
  /\ interleaved w' = interleaved w
  /\ log w' = log w ++ [e].
Proof.
  unfold call, bind, emit. destruct answer; simpl; [|discriminate].
  intros H; injection H as <- <-. simpl. auto.
Qed.

Lemma process_frame_refines s fr l w l' w' :
  process_frame out v s fr l w = (Val l', w') ->
  refines (if S (frame_number l) mod sampling_stride =? 0
           then occurrences_in (S (frame_number l)) fr else [])
    l w l' w'
  /\ frame_number l' = S (frame_number l).
Proof.
  unfold process_frame, next_frame. cbn [frame_number]. rewrite Nat.add_1_r.
  change sampling_stride with 10.
  destruct (S (frame_number l) mod 10 =? 0); cbn [negb].
  - intros H. apply bind_Val in H as (l1 & w1 & H1 & H).
    apply bind_Val in H as (rs & w2 & H2 & H).
    apply report_progress_Val in H1 as (-> & D1 & T1 & C1 & F1).
    apply call_Val in H2 as (A2 & G2 & I2 & _).
    apply results_loop_refines in H as [R F]. simpl in *.
    split; [|congruence].
    unfold occurrences_in, frame_pairs. rewrite A2, <- F1.
    eapply refines_from; [| |exact R].
    + unfold progress_of. rewrite T1, C1, G2, I2. reflexivity.
    + exact D1.
  - unchanged.
Qed.

Lemma frames_loop_refines s fs : forall l w l' w',
  for_each (process_frame out v s) fs l w = (Val l', w') ->
  refines (occurrences_from (frame_number l) fs) l w l' w'
  /\ frame_number l' = frame_number l + length fs.
Proof.
  induction fs as [|fr fs IH]; intros l w l' w' H; simpl in *.
  - injection H as <- <-. split; [apply refines_nil; reflexivity|lia].
  - apply bind_Val in H as (l1 & w1 & H1 & H2).
    apply process_frame_refines in H1 as [R1 F1].
    apply IH in H2 as [R2 F2]. rewrite F1 in R2. split; [|lia].
    exact (refines_trans _ _ _ _ _ _ _ _ R1 R2).
Qed.

End Refinement.

(** ** The worker as a whole *)

Lemma process_single_video_unfold v out w :
  process_single_video v out w =
  match capture v with
  | None => (Val None, opened v out w)
  | Some s =>
      match for_each (process_frame out v s) (frames s) (initial_locals s)
              (opened v out w) with
      | (Val l, w1) =>
          (Val (Some (summary v out l)),
           logged [Release; JsonDump (video_output_dir out v) (results_ (stem v))] w1)
      | (Exc e, w1) => (Exc e, w1)
      end
  end.
Proof.
  unfold process_single_video, bind, emit, opened, logged. simpl.
  rewrite <- !app_assoc. simpl.
  destruct (capture v) as [s|]; [|reflexivity].
  destruct (for_each _ _ _ _) as [[l|e] w1]; [|reflexivity].
  simpl. rewrite <- !app_assoc. reflexivity.
Qed.

Lemma process_single_video_Some v out w r w' :
  process_single_video v out w = (Val (Some r), w') ->
  exists s l w1,
    capture v = Some s
    /\ for_each (process_frame out v s) (frames s) (initial_locals s)
         (opened v out w) = (Val l, w1)
    /\ r = summary v out l
    /\ w' = logged [Release; JsonDump (video_output_dir out v) (results_ (stem v))] w1.
Proof.
  rewrite process_single_video_unfold.
  destruct (capture v) as [s|]; [|discriminate].
  destruct (for_each _ _ _ _) as [[l|e] w1] eqn:E; [|discriminate].
  intros H; injection H as <- <-. exists s, l, w1. auto.
Qed.

(** ** Facts about attempts *)

Lemma last_cons {A} (x : A) l d : last (x :: l) d = last l x.
Proof.
  revert x d. induction l as [|y l IH]; intros x d; [reflexivity|].
  change (last (x :: y :: l) d) with (last (y :: l) d).
  rewrite (IH y d), (IH y x). reflexivity.
Qed.

Lemma after_all_attempts occs : forall seen c g others,
  let atts := attempts seen c g others occs in
  after_all (seen, c, g, others) atts =
  (seen ++ map id_of (filter kept atts), c + length atts,
   counter_after g atts, skipn (length atts) others).
Proof.
  unfold counter_after.
  induction occs as [|o occs IH]; intros seen c g others; simpl.
  - rewrite app_nil_r, Nat.add_0_r. reflexivity.
  - destruct (qualifying o && negb (known (the_id o) seen)); [|apply IH].
    cbn [after_all fold_left after kept occ local_no global_no].
    unfold after_all in IH. rewrite IH. clear IH.
    set (atts := attempts _ _ _ _ occs).
    cbn [filter kept length map global_no].
    rewrite last_cons.
    replace (c + 1 + length atts) with (c + S (length atts)) by lia.
    replace (skipn (S (length atts)) others) with (skipn (length atts) (tl others))
      by (destruct others; simpl; [rewrite !skipn_nil|]; reflexivity).
    destruct (adequate o); simpl; [rewrite <- app_assoc|]; reflexivity.
Qed.

Lemma attempts_local_numbers occs : forall seen c g others,
  map local_no (attempts seen c g others occs) =
  seq (c + 1) (length (attempts seen c g others occs)).
Proof.
  induction occs as [|o occs IH]; intros seen c g others; simpl; [reflexivity|].
  destruct (qualifying o && negb (known (the_id o) seen)); [|apply IH].
  simpl. f_equal. rewrite IH. f_equal. lia.
Qed.

Lemma attempts_global_numbers occs : forall seen c g others,
  StronglySorted lt (map global_no (attempts seen c g others occs))
  /\ Forall (fun n => g < n) (map global_no (attempts seen c g others occs)).
Proof.
  induction occs as [|o occs IH]; intros seen c g others; simpl.
  - split; constructor.
  - destruct (qualifying o && negb (known (the_id o) seen)); [|apply IH].
    simpl.
    destruct (IH (if adequate o then seen ++ [the_id o] else seen)
                 (c + 1) (g + hd 0 others + 1) (tl others)) as [S F].
    split; constructor; auto; try lia.
    eapply Forall_impl; [|exact F]. simpl. intros; lia.
Qed.

(** With no other worker in between, global numbers are consecutive. *)
Lemma attempts_global_numbers_alone occs : forall seen c g,
  map global_no (attempts seen c g [] occs) =
  seq (g + 1) (length (attempts seen c g [] occs)).
Proof.
  induction occs as [|o occs IH]; intros seen c g; simpl; [reflexivity|].
  destruct (qualifying o && negb (known (the_id o) seen)); [|apply IH].
  simpl. rewrite Nat.add_0_r. f_equal. rewrite IH. f_equal. lia.
Qed.

Lemma counter_after_bounds g atts :
  Forall (fun n => g < n) (map global_no atts) ->
  StronglySorted lt (map global_no atts) ->
  g <= counter_after g atts
  /\ Forall (fun n => n <= counter_after g atts) (map global_no atts).
Proof.
  unfold counter_after. generalize (map global_no atts) as l. clear atts.
  intros l; revert g. induction l as [|x l IH]; intros g F S.
  - simpl. split; [lia|constructor].
  - inversion F as [|? ? Fx Fl]; inversion S as [|? ? Sl Sx]; subst.
    destruct l as [|y l].
    + simpl. split; [lia|]. constructor; [lia|constructor].
    + rewrite last_cons.
      destruct (IH x Sx Sl) as [B1 B2].
      split; [lia|]. constructor; [lia|exact B2].
Qed.

Lemma known_app t seen x : known t (seen ++ [x]) = known t seen || Z.eqb t x.
Proof. unfold known. rewrite existsb_app. simpl. rewrite orb_false_r. reflexivity. Qed.

(** Among the kept attempts there is, for one track id, the first
    qualifying occurrence with an adequate crop, and no other. *)
Lemma kept_of_id t occs : forall seen c g others,
  map occ (filter (fun a => kept a && Z.eqb (id_of a) t)
             (attempts seen c g others occs)) =
  if known t seen then []
  else match first_kept t occs with
       | Some o => [o]
       | None => []
       end.
Proof.
  unfold first_kept, id_of.
  induction occs as [|o occs IH]; intros seen c g others; simpl.
  - destruct (known t seen); reflexivity.
  - destruct (qualifying o) eqn:Q; simpl.
    + destruct (known (the_id o) seen) eqn:K; simpl.
      * rewrite IH. destruct (known t seen) eqn:Kt; [reflexivity|].
        destruct (Z.eqb_spec (the_id o) t) as [E|E]; [congruence|reflexivity].
      * destruct (adequate o) eqn:A; simpl.
        -- destruct (Z.eqb_spec (the_id o) t) as [E|E]; simpl.
           ++ rewrite IH, known_app. subst t. rewrite K, Z.eqb_refl. reflexivity.
           ++ rewrite IH, known_app.
              destruct (Z.eqb_spec t (the_id o)); [congruence|].
              rewrite orb_false_r. reflexivity.
        -- rewrite andb_false_r. apply IH.
    + rewrite andb_false_r. simpl. apply IH.
Qed.

Lemma first_kept_local_number occs : forall seen c g others a rest,
  filter kept (attempts seen c g others occs) = a :: rest ->
  local_no a = c + 1 + leading_rejections (attempts seen c g others occs).
Proof.
  induction occs as [|o occs IH]; intros seen c g others a rest; simpl;
    [discriminate|].
  destruct (qualifying o && negb (known (the_id o) seen)); [|apply IH].
  simpl. destruct (adequate o).
  - intros H; injection H as <- _. simpl. lia.
  - intros H. apply IH in H. lia.
Qed.

Lemma StronglySorted_seq a n : StronglySorted lt (seq a n).
Proof.
  revert a. induction n as [|n IH]; intros a; simpl; constructor; auto.
  apply Forall_forall. intros x H. apply in_seq in H. lia.
Qed.

Lemma StronglySorted_map_filter {A} (f : A -> nat) (p : A -> bool) l :
  StronglySorted lt (map f l) -> StronglySorted lt (map f (filter p l)).
Proof.
  induction l as [|x l IH]; simpl; intros H; [constructor|].
  inversion H as [|? ? S F]; subst.
  destruct (p x); simpl; auto. constructor; auto.
  rewrite Forall_forall in *. intros y Hy. apply F.
  apply in_map_iff in Hy as (z & <- & Hz). apply filter_In in Hz as [Hz _].
  apply in_map. exact Hz.
Qed.

Lemma StronglySorted_lt_NoDup l : StronglySorted lt l -> NoDup l.
Proof.
  induction 1 as [|x l S IH F]; constructor; auto.
  intros H. rewrite Forall_forall in F. apply F in H. lia.
Qed.

(** A worker that returns a result did, on its video, what the attempts say. *)
Lemma completed_run v out w r w' s :
  process_single_video v out w = (Val (Some r), w') ->
  capture v = Some s ->
  let atts := attempts [] 0 (_value (global_person_counter w)) (interleaved w)
                (occurrences s) in
  total_unique_people_detected r = length atts
  /\ tracking_ids_detected r = map id_of (filter kept atts)
  /\ map origin (summary_detection_results r) =
     map (fun a => origin_of (occ a)) (filter kept atts)
  /\ map numbers (summary_detection_results r) = map numbers_of (filter kept atts)
  /\ total_frames_processed r = length (frames s)
  /\ _value (global_person_counter w') =
     counter_after (_value (global_person_counter w)) atts
  /\ interleaved w' = skipn (length atts) (interleaved w).
Proof.
  intros H Hs.
  apply process_single_video_Some in H as (s' & l & w1 & Hs' & Hrun & -> & ->).
  rewrite Hs in Hs'. injection Hs' as <-.
  apply frames_loop_refines in Hrun as [(P & O & N) F].
  unfold progress_of, attempts_at in *. simpl in *.
  rewrite after_all_attempts in P. simpl in P.
  injection P as P1 P2 P3 P4.
  unfold occurrences. repeat split; auto.
Qed.

(** ** What the frame loop does to the log *)

Lemma box_events_no_track evs : Forall box_event evs -> track_calls evs = [].
Proof.
  induction 1 as [|e evs He _ IH]; simpl; [reflexivity|].
  rewrite IH. destruct e; simpl in He; try contradiction; reflexivity.
Qed.

Lemma box_event_loop_event e : box_event e -> loop_event e.
Proof. destruct e; simpl; auto. Qed.

Lemma track_calls_app a b : track_calls (a ++ b) = track_calls a ++ track_calls b.
Proof. unfold track_calls. apply flat_map_app. Qed.

Lemma process_frame_unfold out v s fr l w :
  process_frame out v s fr l w =
  if negb (frame_number (next_frame l) mod 10 =? 0) then (Val (next_frame l), w)
  else match report_progress s fr (next_frame l) w with
       | (Exc e, w0) => (Exc e, w0)
       | (Val l1, w0) =>
           match track_answer fr with
           | Exc e => (Exc e, logged [Track (frame_number l1)] w0)
           | Val rs =>
               for_each (process_result out v fr) rs l1
                 (logged [Track (frame_number l1)] w0)
           end
       end.
Proof.
  unfold process_frame. destruct (negb _); [reflexivity|].
  unfold bind at 1. destruct (report_progress _ _ _ _) as [[l1|e] w0];
    [|reflexivity].
  unfold bind, call, bind, emit, logged.
  destruct (track_answer fr); reflexivity.
Qed.

Lemma process_frame_log out v s fr l w :
  let n := S (frame_number l) in
  exists evs,
    log (snd (process_frame out v s fr l w)) = log w ++ evs
    /\ Forall loop_event evs
    /\ match fst (process_frame out v s fr l w) with
       | Val l' =>
           frame_number l' = n
           /\ track_calls evs = if n mod sampling_stride =? 0 then [n] else []
       | Exc _ =>
           (n mod sampling_stride =? 0) = true
           /\ (track_calls evs = [n] \/ track_calls evs = [])
       end.
Proof.
  intros n. rewrite process_frame_unfold.
  assert (N : frame_number (next_frame l) = n)
    by (unfold n; simpl; apply Nat.add_1_r).
  rewrite N. change sampling_stride with 10.
  destruct (n mod 10 =? 0) eqn:Hs; cbn [negb].
  - destruct (report_progress s fr _ w) as [[l1|e] w0] eqn:Hp.
    + apply report_progress_Val in Hp as (-> & _ & _ & _ & F1).
      rewrite N in F1. rewrite F1.
      destruct (track_answer fr) as [rs|e].
      * destruct (emits_for_each box_event (process_result out v fr) rs
                    (fun x s0 => emits_process_result out v fr x s0) l1
                    (logged [Track n] w))
          as (evs & L & F).
        exists (Track n :: evs). rewrite L. cbn [logged log].
        rewrite <- app_assoc. split; [reflexivity|]. split.
        { constructor; [exact I|].
          eapply Forall_impl; [apply box_event_loop_event|exact F]. }
        change (track_calls (Track n :: evs)) with (n :: track_calls evs).
        rewrite (box_events_no_track _ F).
        destruct (for_each _ rs l1 _) as [[l'|e] w'] eqn:E; cbn [fst].
        -- apply results_loop_refines in E as [_ E]. split; congruence.
        -- auto.
      * exists [Track n]. cbn. split; [reflexivity|]. split; [repeat constructor|]. auto.
    + exists []. unfold report_progress in Hp.
      destruct (Qle_bool _ _); [|discriminate].
      destruct (Z.eqb _ _); [|discriminate].
      injection Hp as <- <-. cbn. rewrite app_nil_r. auto.
  - exists []. cbn. rewrite app_nil_r. auto.
Qed.

Lemma sampled_from_S n k :
  sampled_from n (S k) =
  (if S n mod sampling_stride =? 0 then [S n] else []) ++ sampled_from (S n) k.
Proof.
  unfold sampled_from. cbn [seq filter].
  destruct (S n mod sampling_stride =? 0); reflexivity.
Qed.

Lemma frames_loop_log out v s fs : forall l w,
  exists evs k,
    log (snd (for_each (process_frame out v s) fs l w)) = log w ++ evs
    /\ Forall loop_event evs
    /\ k <= length fs
    /\ track_calls evs = sampled_from (frame_number l) k
    /\ match fst (for_each (process_frame out v s) fs l w) with
       | Val l' => k = length fs /\ frame_number l' = frame_number l + length fs
       | Exc _ => True
       end.
Proof.
  induction fs as [|fr fs IH]; intros l w.
  - exists [], 0. cbn. rewrite app_nil_r. repeat split; auto.
  - cbn [for_each]. unfold bind.
    destruct (process_frame_log out v s fr l w) as (e1 & L1 & F1 & C1).
    destruct (process_frame out v s fr l w) as [[l1|e] w1]; cbn [fst snd] in *.
    + destruct C1 as [N1 T1].
      destruct (IH l1 w1) as (e2 & k & L2 & F2 & K & T2 & C2).
      exists (e1 ++ e2), (S k). rewrite L2, L1, app_assoc.
      split; [reflexivity|]. split; [apply Forall_app; auto|].
      split; [simpl; lia|]. split.
      * rewrite track_calls_app, T1, T2, N1, sampled_from_S. reflexivity.
      * destruct (fst (for_each _ fs l1 w1)); [|exact I].
        destruct C2 as [-> C2]. simpl. split; [reflexivity|lia].
    + destruct C1 as [Hs [T1|T1]].
      * exists e1, 1. repeat split; auto; [simpl; lia|].
        rewrite T1, sampled_from_S, Hs. reflexivity.
      * exists e1, 0. repeat split; auto. simpl; lia.
Qed.

Lemma every_stride_th F :
  filter (fun i => i mod sampling_stride =? 0) (seq 1 F) =
  map (fun q => sampling_stride * q) (seq 1 (F / sampling_stride)).
Proof.
  change sampling_stride with 10.
  induction F as [|F IH]; [reflexivity|].
  rewrite seq_S, filter_app, IH. cbn [filter]. change (1 + F) with (S F).
  destruct (S F mod 10 =? 0) eqn:E.
  - apply Nat.eqb_eq in E.
    assert (Q : S F / 10 = S (F / 10)).
    { pose proof (Nat.div_mod_eq (S F) 10). pose proof (Nat.div_mod_eq F 10).
      pose proof (Nat.mod_upper_bound F 10). lia. }
    rewrite Q, seq_S, map_app. cbn [map]. f_equal. f_equal.
    pose proof (Nat.div_mod_eq (S F) 10). lia.
  - apply Nat.eqb_neq in E.
    assert (Q : S F / 10 = F / 10).
    { pose proof (Nat.div_mod_eq (S F) 10). pose proof (Nat.div_mod_eq F 10).
      pose proof (Nat.mod_upper_bound F 10).
      pose proof (Nat.mod_upper_bound (S F) 10). lia. }
    rewrite Q, app_nil_r. reflexivity.
Qed.

(** ** The model at work *)

(** One video, three sampled frames, track 7 on the first and the third,
    confident and large both times: one record, from frame 10, local
    number 1. *)
Example track_7_seen_twice :
  map (fun d => (track_id d, first_detected_frame d, local_person_number d))
      (Sample.records_of Sample.seen_twice) = [(7%Z, 10, 1)].
Proof. reflexivity. Qed.

Example unsure_person_is_passed_over :
  map (fun d => (track_id d, local_person_number d, global_person_number d))
      (Sample.records_of Sample.one_unsure) = [(5%Z, 1, 1)].
Proof. reflexivity. Qed.

(** Labels and threshold of the t-shirt model: 0.875 passes, 0.125 does not. *)
Example tshirt_info_example :
  tshirt_info_of Sample.tshirt_found = [(named "tshirt", 7 # 8)].
Proof. reflexivity. Qed.

(** The thresholds are compared in single precision: a confidence that
    is the float32 nearest to 0.4 (it is above 4/10) is not above the
    threshold, and the next rational step above it is. *)
Example threshold_is_the_float32_of_0_4 :
  (4 # 10 < conf Sample.borderline)%Q
  /\ is_confident_person Sample.borderline = false
  /\ is_confident_person
       {| conf := 13421774 # 33554432; cls := 0; xyxy := (0, 0, 0, 0)%Z;
          tshirt_answer := Val Sample.tshirt_found; now := 0;
          person_write := Val tt; annotated_write := Val tt |} = true.
Proof. split; [reflexivity|]. split; reflexivity. Qed.

Example tshirt_threshold_is_the_float32_of_0_3 :
  (3 # 10 < float32_0_3)%Q
  /\ tshirt_info_of Sample.tshirt_borderline = [].
Proof. split; reflexivity. Qed.

(** A small box of track 7 with that confidence, then a sure large box of
    track 8: the first is passed over without a number, the second gets
    local number 1, and one person is counted. *)
Example borderline_person_takes_no_number :
  match Sample.result_of Sample.borderline_then_sure with
  | Val (Some r) =>
      map (fun d => (track_id d, local_person_number d, global_person_number d))
          (summary_detection_results r) = [(8%Z, 1, 1)]
      /\ total_unique_people_detected r = 1
  | _ => False
  end.
Proof. vm_compute. split; reflexivity. Qed.

(** The division of the progress report: a stream that reports zero
    frames ends the worker at its first report, before [track] is called. *)
Example zero_frame_count_faults :
  let (r, w') := process_single_video Sample.no_frame_count "out" initial_world in
  r = Exc ZeroDivisionError /\ track_calls (log w') = [].
Proof. vm_compute. split; reflexivity. Qed.

(** Slices as numpy takes them: clipped to the axis, empty when reversed. *)
Example slice_examples :
  slice_len 480 100 400 = 300 /\ slice_len 480 400 100 = 0
  /\ slice_len 480 450 900 = 30 /\ slice_len 480 (-30) 480 = 30.
Proof. repeat split; reflexivity. Qed.

(** Another worker takes two numbers between two calls of this one. *)
Example numbers_with_other_workers :
  let w := {| global_person_counter := new_counter; interleaved := [0; 2]; log := [] |} in
  match fst (process_single_video Sample.three_people "out" w) with
  | Val (Some r) => map numbers (summary_detection_results r) = [(1, 1); (2, 4); (3, 5)]
  | _ => False
  end.
Proof. vm_compute. reflexivity. Qed.

(** An empty list of videos: the default worker count is 0 and the pool
    refuses it. *)
Example no_videos_no_pool :
  fst (process_multiple_videos [] None "out" (Some 8) [] initial_world)
  = Exc ValueError.
Proof. reflexivity. Qed.

(** ** The counter: every call comes back *)

Section CounterLiveness.
Import Counter Counter2.

Lemma run_app a b s : run (a ++ b) s = run b (run a s).
Proof. unfold run. apply fold_left_app. Qed.

Lemma length_upd t p l : length (upd t p l) = length l.
Proof.
  revert t. induction l as [|q l IH]; intros [|t]; simpl; auto.
Qed.

Lemma length_pcs_step t s : length (pcs (step t s)) = length (pcs s).
Proof.
  unfold step. destruct (nth_error (pcs s) t) as [[| | | | | |]|]; simpl;
    try apply length_upd; try reflexivity.
  destruct (lock s); simpl; [reflexivity|apply length_upd].
Qed.

Lemma length_pcs_run schedule : forall s,
  length (pcs (run schedule s)) = length (pcs s).
Proof.
  unfold run. induction schedule as [|t sch IH]; intros s; simpl; [reflexivity|].
  rewrite IH. apply length_pcs_step.
Qed.

Lemma step_moves t s p :
  nth_error (pcs s) t = Some p ->
  (p = Entering -> lock s = None) ->
  pcs (step t s) = upd t (next_pc s p) (pcs s)
  /\ returned (step t s) = returned s ++ handed_over t p
  /\ lock (step t s) = match p with
                        | Entering => Some t
                        | Leaving _ => None
                        | _ => lock s
                        end.
Proof.
  intros Hp Hl. unfold step. rewrite Hp.
  destruct p; simpl; rewrite ?app_nil_r; auto.
  rewrite (Hl eq_refl). simpl. auto.
Qed.

Lemma step_others t s u : u <> t -> nth_error (pcs (step t s)) u = nth_error (pcs s) u.
Proof.
  intros Hu. unfold step.
  destruct (nth_error (pcs s) t) as [[| | | | | |]|]; simpl;
    try (apply nth_error_upd_other; congruence); try reflexivity.
  destruct (lock s); simpl; [reflexivity|apply nth_error_upd_other; congruence].
Qed.

(** A thread that is not kept waiting gets its value to its caller by
    its own moves. *)
Lemma finish_call n : forall p s t,
  moves_to_return p = n ->
  nth_error (pcs s) t = Some p ->
  (p = Idle \/ p = Entering -> lock s = None) ->
  exists r, returned (run (repeat t n) s) = returned s ++ [(t, r)].
Proof.
  induction n as [|n IH]; intros p s t Hn Hp Hl; [destruct p; discriminate|].
  cbn [repeat]. change (run (t :: repeat t n) s) with (run (repeat t n) (step t s)).
  destruct (step_moves t s p Hp) as (P & R & L).
  { intros ->. apply Hl. auto. }
  assert (Hp' : nth_error (pcs (step t s)) t = Some (next_pc s p))
    by (rewrite P; apply (nth_error_upd_same _ _ _ _ Hp)).
  destruct p as [| | |v| |r0|r0]; simpl in Hn; injection Hn as Hn;
    try (eapply IH in Hp' as [r Hr];
         [ exists r; rewrite Hr, R; simpl; rewrite app_nil_r; reflexivity
         | exact Hn
         | intros [E|E]; try discriminate E; rewrite L; apply Hl; auto ]).
  subst n. exists r0. simpl. unfold run. simpl. exact R.
Qed.

(** The holder of the lock frees it by its own moves, and nothing else
    changes for the other threads. *)
Lemma release_lock n : forall p s h,
  moves_to_release p = n ->
  critical p = true ->
  nth_error (pcs s) h = Some p ->
  lock (run (repeat h n) s) = None
  /\ returned (run (repeat h n) s) = returned s
  /\ forall u, u <> h ->
       nth_error (pcs (run (repeat h n) s)) u = nth_error (pcs s) u.
Proof.
  induction n as [|n IH]; intros p s h Hn Hc Hp; [destruct p; discriminate|].
  cbn [repeat]. change (run (h :: repeat h n) s) with (run (repeat h n) (step h s)).
  destruct (step_moves h s p Hp) as (P & R & L).
  { intros ->. discriminate. }
  assert (Hp' : nth_error (pcs (step h s)) h = Some (next_pc s p))
    by (rewrite P; apply (nth_error_upd_same _ _ _ _ Hp)).
  destruct p as [| | |v| |r0|r0]; try discriminate; simpl in Hn;
    injection Hn as Hn;
    try (eapply IH in Hp' as (L1 & R1 & O1); [ | exact Hn | reflexivity ];
         split; [exact L1|]; split;
         [ rewrite R1, R; simpl; apply app_nil_r
         | intros u Hu; rewrite (O1 u Hu); apply step_others, Hu ]).
  subst n. unfold run. simpl. split; [exact L|]. split.
  - rewrite R. simpl. apply app_nil_r.
  - intros u Hu. apply step_others, Hu.
Qed.

(** No reachable state is a dead end for any thread. *)
Lemma no_dead_end s t :
  inv s -> t < length (pcs s) ->
  exists more r, returned (run more s) = returned s ++ [(t, r)].
Proof.
  intros (_ & _ & Hlock) Ht.
  destruct (nth_error (pcs s) t) as [p|] eqn:Hp;
    [|apply nth_error_None in Hp; lia].
  destruct (lock s) as [h|] eqn:Hl.
  - destruct Hlock as [U (q & Hq & Hok)].
    destruct (Nat.eq_dec t h) as [->|Hne].
    + rewrite Hp in Hq. injection Hq as <-.
      destruct (finish_call _ p s h eq_refl Hp) as [r Hr].
      { intros [->| ->]; contradiction. }
      eauto.
    + assert (Cq : critical q = true) by (destruct q; simpl in *; tauto).
      destruct (release_lock _ q s h eq_refl Cq Hq) as (L1 & R1 & O1).
      assert (Cp : critical p = false).
      { destruct (critical p) eqn:C; [|reflexivity].
        exfalso. apply Hne. exact (U t p Hp C). }
      destruct (finish_call _ p (run (repeat h (moves_to_release q)) s) t
                  eq_refl) as [r Hr].
      { rewrite O1 by exact Hne. exact Hp. }
      { intros _. exact L1. }
      exists (repeat h (moves_to_release q) ++ repeat t (moves_to_return p)), r.
      rewrite run_app, Hr, R1. reflexivity.
  - destruct (finish_call _ p s t eq_refl Hp) as [r Hr]; [auto|]. eauto.
Qed.

Lemma upd_twice t p q l : upd t p (upd t q l) = upd t p l.
Proof.
  revert t. induction l as [|x l IH]; intros [|t]; simpl; auto.
  f_equal. apply IH.
Qed.

Lemma upd_unchanged t p l : nth_error l t = Some p -> upd t p l = l.
Proof.
  revert t. induction l as [|x l IH]; intros [|t]; simpl; intros H;
    try discriminate.
  - injection H as ->. reflexivity.
  - f_equal. apply IH, H.
Qed.

(** One call from a state in which every thread is outside [increment]. *)
Lemma one_call_at_rest s t :
  inv s -> quiescent s -> t < length (pcs s) ->
  run (one_call t) s =
  {| counter := {| _value := length (issued s) + 1 |};
     lock := None;
     pcs := pcs s;
     issued := issued s ++ [length (issued s) + 1];
     returned := returned s ++ [(t, length (issued s) + 1)] |}.
Proof.
  intros I Q Ht.
  assert (Hl : lock s = None).
  { destruct I as (_ & _ & Hlock). destruct (lock s) as [h|]; [|reflexivity].
    destruct Hlock as [_ (p & Hp & Hok)].
    unfold quiescent in Q. rewrite Forall_forall in Q.
    rewrite (Q p (nth_error_In _ _ Hp)) in Hok. contradiction. }
  assert (Hv : _value (counter s) = length (issued s)).
  { destruct I as (_ & _ & Hlock). rewrite Hl in Hlock. apply Hlock. }
  assert (Hp : nth_error (pcs s) t = Some Idle).
  { destruct (nth_error (pcs s) t) as [p|] eqn:E.
    - unfold quiescent in Q. rewrite Forall_forall in Q.
      rewrite (Q p (nth_error_In _ _ E)). reflexivity.
    - apply nth_error_None in E. lia. }
  assert (U : forall p, nth_error (upd t p (pcs s)) t = Some p)
    by (intros p; apply (nth_error_upd_same t p _ _ Hp)).
  pose proof (upd_twice t) as UU.
  pose proof (upd_unchanged t Idle (pcs s) Hp) as US.
  unfold run, one_call. cbn [repeat fold_left].
  unfold step at 7. rewrite Hp. unfold set_pc.
  unfold step at 6. cbn [pcs lock]. rewrite U, Hl.
  unfold step at 5. cbn [pcs lock]. rewrite UU, U.
  unfold set_pc. cbn [pcs lock counter].
  unfold step at 4. cbn [pcs lock]. rewrite UU, U.
  cbn [pcs lock counter].
  unfold step at 3. cbn [pcs lock]. rewrite UU, U.
  cbn [pcs lock counter issued].
  unfold step at 2. cbn [pcs lock]. rewrite UU, U.
  cbn [pcs lock counter issued].
  unfold step at 1. cbn [pcs lock]. rewrite UU, U.
  cbn [pcs lock counter issued returned _value].
  rewrite UU, US, Hv. reflexivity.
Qed.

(** Calls made one after the other, by any threads in any order. *)
Lemma calls_in_turn callers : forall s,
  inv s -> quiescent s ->
  Forall (fun t => t < length (pcs s)) callers ->
  quiescent (run (flat_map one_call callers) s)
  /\ returned (run (flat_map one_call callers) s) =
     returned s ++ combine callers (seq (length (issued s) + 1) (length callers)).
Proof.
  induction callers as [|t callers IH]; intros s I Q F.
  - simpl. rewrite app_nil_r. auto.
  - inversion F as [|? ? Ft Fc]; subst.
    cbn [flat_map]. rewrite run_app.
    pose proof (inv_run (one_call t) s I) as I1.
    pose proof (one_call_at_rest s t I Q Ft) as E.
    destruct (IH (run (one_call t) s)) as [Q2 R2].
    + exact I1.
    + rewrite E. exact Q.
    + rewrite E. exact Fc.
    + split; [exact Q2|]. rewrite R2, E. cbn [returned issued pcs].
      rewrite length_app, <- app_assoc. cbn [length combine seq app].
      repeat f_equal. lia.
Qed.

End CounterLiveness.

(* ================================================================= *)
(** * The claims *)

Lemma increments_seq n : forall c, increments n c = seq (_value c + 1) n.
Proof.
  induction n as [|n IH]; intros c; simpl; [reflexivity|].
  rewrite IH. simpl. rewrite !Nat.add_1_r. reflexivity.
Qed.

(** C1.  Whatever the number of worker threads and whatever the order in
    which the scheduler lets them move through [increment]:
    - the values handed out are, in the order in which the lock was held,
      1, 2, 3, ...: the first is 1 and each is one more than the one
      before, exactly as if the calls had been made one after the other;
    - no value reaches two callers, and the values that have reached a
      caller or are on their way to one are exactly 1 .. total issued;
    - every thread can still get a value: from the state reached there
      is a continuation after which one more value has reached it;
    - when all calls have come back, further calls made one after the
      other, by any threads in any order, come back with total issued + 1,
      total issued + 2, ... (from the start: 1, 2, 3, ...). *)
Theorem increment_issues_dense_sequence (workers : nat) (schedule : list nat) :
  let s := Counter.run schedule (Counter.init workers) in
  let total_issued := length (Counter.issued s) in
  let handed_out := map snd (Counter.returned s)
                    ++ Counter.outstanding (Counter.pcs s) in
  Counter.issued s = seq 1 total_issued
  /\ Counter.issued s = increments total_issued new_counter
  /\ NoDup handed_out
  /\ Permutation handed_out (seq 1 total_issued)
  /\ (forall t, t < workers ->
        exists more r,
          Counter.returned (Counter.run more s) = Counter.returned s ++ [(t, r)])
  /\ (Counter.quiescent s ->
      forall callers, Forall (fun t => t < workers) callers ->
        let s' := Counter.run (flat_map Counter2.one_call callers) s in
        Counter.quiescent s'
        /\ Counter.returned s' =
           Counter.returned s
           ++ combine callers (seq (total_issued + 1) (length callers))).
Proof.
  intros s total_issued handed_out.
  pose proof (inv_run schedule _ (inv_init workers)) as I. fold s in I.
  assert (W : length (Counter.pcs s) = workers).
  { unfold s. rewrite length_pcs_run. simpl. apply repeat_length. }
  pose proof I as (Hseq & Hperm & _).
  fold handed_out in Hperm. fold total_issued in Hseq.
  assert (P : Permutation handed_out (seq 1 total_issued))
    by (rewrite <- Hseq; exact Hperm).
  split; [exact Hseq|].
  split; [rewrite increments_seq; exact Hseq|].
  split; [apply (Permutation_NoDup (Permutation_sym P)), seq_NoDup|].
  split; [exact P|].
  split.
  - intros t Ht. apply no_dead_end; [exact I|]. rewrite W. exact Ht.
  - intros Q callers F. apply calls_in_turn; [exact I|exact Q|].
    rewrite W. exact F.
Qed.

(** Two threads interleaved as far as both being back, then three more
    calls in turn: they come back with 3, 4 and 5. *)
Lemma increment_issues_dense_sequence_witness :
  let s := Counter.run [0; 1; 0; 1; 0; 0; 0; 0; 1; 1; 1; 1; 1; 1; 0]
             (Counter.init 2) in
  let s' := Counter.run (flat_map Counter2.one_call [1; 0; 1]) s in
  Counter.issued s = [1; 2]
  /\ (exists more r,
        Counter.returned (Counter.run more s) = Counter.returned s ++ [(1, r)])
  /\ Counter.quiescent s'
  /\ Counter.returned s' = [(1, 2); (0, 1); (1, 3); (0, 4); (1, 5)].
Proof.
  intros s s'.
  destruct (increment_issues_dense_sequence 2
              [0; 1; 0; 1; 0; 0; 0; 0; 1; 1; 1; 1; 1; 1; 0])
    as (Hseq & _ & _ & _ & Hlive & Hturn).
  split; [exact Hseq|].
  split; [apply Hlive; lia|].
  apply (Hturn ltac:(vm_compute; repeat constructor) [1; 0; 1]).
  repeat constructor.
Defined.

(** When every call has come back, the values that came back are
    exactly 1 .. total issued. *)
Lemma all_returned_when_quiescent (workers : nat) (schedule : list nat) :
  let s := Counter.run schedule (Counter.init workers) in
  Counter.quiescent s ->
  Permutation (map snd (Counter.returned s)) (seq 1 (length (Counter.returned s))).
Proof.
  intros s Q.
  destruct (inv_run schedule _ (inv_init workers)) as (Hseq & Hperm & _).
  fold s in Hseq, Hperm.
  assert (O : Counter.outstanding (Counter.pcs s) = []).
  { unfold Counter.quiescent in Q. unfold Counter.outstanding.
    induction Q as [|p l -> _ IH]; simpl; auto. }
  rewrite O, app_nil_r in Hperm.
  rewrite <- (length_map snd), (Permutation_length Hperm), <- Hseq. exact Hperm.
Qed.

(** Two workers in flight together: the second waits for the lock, gets
    2, and is back at its caller before the first. *)
Example two_workers_interleaved :
  let s := Counter.run [0; 1; 0; 1; 0; 0; 0; 0; 1; 1; 1; 1; 1; 1; 0]
             (Counter.init 2) in
  Counter.issued s = [1; 2] /\ Counter.returned s = [(1, 2); (0, 1)].
Proof. vm_compute. split; reflexivity. Qed.

Lemma dict_mem_set {V} (k : Z) (v : V) (d : dict V) :
  dict_mem k (dict_set k v d) = true.
Proof.
  induction d as [|[k' v'] d IH]; simpl.
  - rewrite Z.eqb_refl. reflexivity.
  - destruct (Z.eqb k k') eqn:E; simpl; rewrite E; auto.
Qed.

(** C3.  A confident person of a track id without a record, whose crop
    is lower or narrower than 50 pixels, is dropped: the list of records,
    the table of tracked people and the log of outside calls (no image
    written, the t-shirt model not run) stay as they were, and the track
    id is still absent from the table.  Wherever the same track id comes
    back confident and large enough while the table is as it was left, it
    is not passed over: the t-shirt model is run on its crop, and when
    that call, the rendering and the image writes answer, it gets its
    record. *)
Theorem small_crop_is_dropped_and_stays_eligible
    (out : string) (v : Video) (fr : Frame) (box : Box) (tid : Z)
    (l : Locals) (w : World) :
  is_confident_person box = true ->
  dict_mem tid (tracked_people l) = false ->
  too_small fr box = true ->
  exists l' w',
    process_box out v fr (box, tid) l w = (Val l', w')
    /\ detection_results l' = detection_results l
    /\ tracked_people l' = tracked_people l
    /\ dict_mem tid (tracked_people l') = false
    /\ log w' = log w
    /\ forall fr2 box2 l2 w2,
         tracked_people l2 = tracked_people l' ->
         is_confident_person box2 = true ->
         too_small fr2 box2 = false ->
         (exists evs,
            log (snd (process_box out v fr2 (box2, tid) l2 w2)) =
            log w2 ++ Classify (frame_number l2) tid :: evs)
         /\ forall ts plotted,
              tshirt_answer box2 = Val ts ->
              person_write box2 = Val tt ->
              plot ts = Val plotted ->
              (plotted = true ->
               plot_again ts = Val tt /\ annotated_write box2 = Val tt) ->
              exists d l3 w3,
                process_box out v fr2 (box2, tid) l2 w2 = (Val l3, w3)
                /\ detection_results l3 = detection_results l2 ++ [d]
                /\ track_id d = tid
                /\ first_detected_frame d = frame_number l2
                /\ bounding_box d = xyxy box2
                /\ dict_mem tid (tracked_people l3) = true.
Proof.
  intros Hq Hnew Hsmall.
  unfold process_box at 1. rewrite Hq, Hnew.
  unfold bind, global_increment, increment. cbn [fst snd]. rewrite Hsmall.
  do 2 eexists. split; [reflexivity|]. cbn.
  do 4 (split; [auto|]).
  intros fr2 box2 l2 w2 Ht Hq2 Hbig. split.
  - unfold process_box. rewrite Hq2, Ht, Hnew.
    unfold bind at 1, global_increment, increment. cbn [fst snd]. rewrite Hbig.
    unfold bind at 1, call at 1, bind at 1, emit at 1.
    destruct (tshirt_answer box2) as [ts|e]; cbn [ret raise].
    + match goal with
      | |- exists evs, log (snd (?m ?w0)) = _ =>
          assert (E : emits (fun _ => True) m)
      end.
      { apply emits_bind; [apply emits_call; exact I|]. intros _.
        apply emits_bind; [apply emits_answer|]. intros plotted.
        apply emits_bind; [|intros; apply emits_ret].
        destruct plotted; [|apply emits_ret].
        apply emits_bind; [apply emits_answer|]. intros _.
        apply emits_bind; [apply emits_call; exact I|]. intros _.
        apply emits_ret. }
      match goal with
      | |- exists evs, log (snd (?m ?w0)) = _ =>
          destruct (E w0) as (evs & L & _)
      end.
      exists evs. rewrite L. cbn [log]. rewrite <- app_assoc. reflexivity.
    + exists []. reflexivity.
  - intros ts plotted Hts Hpw Hplot Hann.
    unfold process_box. rewrite Hq2, Ht, Hnew.
    unfold bind, global_increment, increment, call, answer, emit, ret.
    cbn [fst snd]. rewrite Hbig, Hts, Hpw. cbn. rewrite Hplot.
    destruct plotted.
    + destruct (Hann eq_refl) as [Ha Hw]. rewrite Ha, Hw. cbn. do 3 eexists.
      split; [reflexivity|]. cbn. repeat split. apply dict_mem_set.
    + cbn. do 3 eexists.
      split; [reflexivity|]. cbn. repeat split. apply dict_mem_set.
Qed.

Lemma small_crop_is_dropped_and_stays_eligible_witness :
  exists l' w',
    process_box "out" Sample.far_then_near (Sample.showing [(Sample.far, 7%Z)])
      (Sample.far, 7%Z) (initial_locals {| fps := 25; total_frames := 30;
                                           start_clock := 0; frames := [] |})
      initial_world = (Val l', w')
    /\ detection_results l' = []
    /\ log w' = []
    /\ exists d l3 w3,
         process_box "out" Sample.far_then_near
           (Sample.showing [(Sample.near, 7%Z)]) (Sample.near, 7%Z) l' w'
         = (Val l3, w3)
         /\ detection_results l3 = detection_results l' ++ [d]
         /\ track_id d = 7%Z.
Proof.
  destruct (small_crop_is_dropped_and_stays_eligible "out" Sample.far_then_near
              (Sample.showing [(Sample.far, 7%Z)]) Sample.far 7%Z
              (initial_locals {| fps := 25; total_frames := 30;
                                 start_clock := 0; frames := [] |})
              initial_world)
    as (l' & w' & H & D & _ & _ & L & E); try reflexivity.
  exists l', w'. split; [exact H|]. split; [exact D|]. split; [exact L|].
  destruct (E (Sample.showing [(Sample.near, 7%Z)]) Sample.near l' w'
              eq_refl eq_refl eq_refl) as [_ R].
  destruct (R Sample.tshirt_found true eq_refl eq_refl eq_refl)
    as (d & l3 & w3 & P & A & T & _).
  - intros _. split; reflexivity.
  - exists d, l3, w3. auto.
Defined.

(** ** The collecting loop *)

Lemma collect_loop_Val fs : forall acc w all w',
  for_each collect fs acc w = (Val all, w') ->
  all = acc ++ successes fs /\ w' = w.
Proof.
  induction fs as [|f fs IH]; intros acc w all w' H; simpl in *.
  - injection H as <- <-. rewrite app_nil_r. auto.
  - apply bind_Val in H as (acc1 & w1 & H1 & H2).
    apply IH in H2 as [-> ->]. unfold collect in H1.
    destruct (snd f) as [[r|]|e].
    + injection H1 as <- <-. rewrite <- app_assoc. auto.
    + injection H1 as <- <-. auto.
    + destruct (is_Exception e); [|discriminate]. injection H1 as <- <-. auto.
Qed.

Lemma collect_loop_catchable fs : forall acc w,
  forallb catchable fs = true ->
  for_each collect fs acc w = (Val (acc ++ successes fs), w).
Proof.
  induction fs as [|f fs IH]; intros acc w H; simpl in *.
  - rewrite app_nil_r. reflexivity.
  - apply andb_true_iff in H as [Hf Hfs]. unfold bind, collect, catchable in *.
    destruct (snd f) as [[r|]|e]; simpl.
    + rewrite IH by assumption. rewrite <- app_assoc. reflexivity.
    + apply IH, Hfs.
    + rewrite Hf. simpl. apply IH, Hfs.
Qed.

Lemma process_multiple_videos_unfold paths mw out cpu done w :
  process_multiple_videos paths mw out cpu done w =
  if (workers_used paths mw cpu <=? 0)%Z
  then (Exc ValueError, logged [Makedirs [out]] w)
  else match for_each collect done [] (logged [Makedirs [out]] w) with
       | (Val all, w1) =>
           (Val (combined paths mw cpu all), logged [JsonDump [] combined_results_] w1)
       | (Exc e, w1) => (Exc e, w1)
       end.
Proof.
  unfold process_multiple_videos, workers_used, combined, bind, emit, logged.
  simpl. destruct (_ <=? 0)%Z; [reflexivity|].
  destruct (for_each collect done [] _) as [[all|e] w1]; reflexivity.
Qed.

Lemma process_multiple_videos_Val paths mw out cpu done w c w' :
  process_multiple_videos paths mw out cpu done w = (Val c, w') ->
  c = combined paths mw cpu (successes done).
Proof.
  rewrite process_multiple_videos_unfold.
  destruct (_ <=? 0)%Z; [discriminate|].
  destruct (for_each collect done [] _) as [[all|e] w1] eqn:E; [|discriminate].
  apply collect_loop_Val in E as [-> _]. intros H; injection H as <- _.
  reflexivity.
Qed.

Lemma process_multiple_videos_runs paths mw out cpu done w :
  (0 < workers_used paths mw cpu)%Z ->
  forallb catchable done = true ->
  process_multiple_videos paths mw out cpu done w =
  (Val (combined paths mw cpu (successes done)),
   logged [JsonDump [] combined_results_] (logged [Makedirs [out]] w)).
Proof.
  intros Hw Hc. rewrite process_multiple_videos_unfold.
  destruct (Z.leb_spec (workers_used paths mw cpu) 0) as [L|_]; [lia|].
  rewrite collect_loop_catchable by assumption. reflexivity.
Qed.

Lemma successes_app a b : successes (a ++ b) = successes a ++ successes b.
Proof. unfold successes. apply flat_map_app. Qed.

Lemma successes_length fs : length (successes fs) <= length fs.
Proof.
  induction fs as [|f fs IH]; simpl; [lia|].
  rewrite length_app. destruct (snd f) as [[r|]|e]; simpl; lia.
Qed.

Lemma successes_all fs :
  forallb succeeded fs = true ->
  map (fun r => Val (Some r)) (successes fs) = map snd fs.
Proof.
  induction fs as [|f fs IH]; simpl; [reflexivity|].
  intros H. apply andb_true_iff in H as [Hf Hfs]. unfold succeeded in Hf.
  destruct (snd f) as [[r|]|e]; try discriminate. simpl. f_equal. auto.
Qed.

Lemma succeeded_catchable fs :
  forallb succeeded fs = true -> forallb catchable fs = true.
Proof.
  rewrite !forallb_forall. intros H f Hf. specialize (H f Hf).
  unfold succeeded, catchable in *. destruct (snd f) as [[r|]|e]; auto.
  discriminate.
Qed.

Lemma default_workers_positive paths cpu :
  paths <> [] -> (0 < default_workers paths cpu)%Z.
Proof.
  unfold default_workers. intros H.
  destruct paths; [congruence|]. simpl length.
  destruct cpu as [[|n]|]; lia.
Qed.

(** C6.  Of the N submitted videos one worker raises an [Exception];
    no other future raises past [except Exception].  In whatever order
    the futures complete, [process_multiple_videos] returns: its list of
    per-video results holds the results of all the other tasks, in
    completion order, and nothing of the one that raised; N videos are
    reported as requested.  When the other N - 1 workers all returned a
    result, the summary reports N - 1 videos processed. *)
Theorem one_fault_does_not_stop_collection
    (paths : list string) (max_workers : option Z) (out : string)
    (cpu_count : option nat) (earlier later : list Settled)
    (path : string) (e : exn) (w : World) :
  is_Exception e = true ->
  forallb catchable (earlier ++ later) = true ->
  Permutation (map fst (earlier ++ (path, Exc e) :: later)) paths ->
  match max_workers with Some m => (0 < m)%Z | None => True end ->
  exists c w',
    process_multiple_videos paths max_workers out cpu_count
      (earlier ++ (path, Exc e) :: later) w = (Val c, w')
    /\ individual_video_results c = successes (earlier ++ later)
    /\ total_videos_requested (processing_summary c) = length paths
    /\ total_videos_processed (processing_summary c) <= length paths - 1
    /\ (forallb succeeded (earlier ++ later) = true ->
        map (fun r => Val (Some r)) (individual_video_results c) =
        map snd (earlier ++ later)
        /\ length (individual_video_results c) = length paths - 1
        /\ total_videos_processed (processing_summary c) = length paths - 1).
Proof.
  intros He Hok Hperm Hmw.
  assert (N : length paths = length earlier + S (length later)).
  { rewrite <- (Permutation_length Hperm), length_map, length_app. reflexivity. }
  assert (Hpos : (0 < workers_used paths max_workers cpu_count)%Z).
  { unfold workers_used. destruct max_workers; [assumption|].
    apply default_workers_positive. intros ->. simpl in N. lia. }
  assert (Hc : forallb catchable (earlier ++ (path, Exc e) :: later) = true).
  { rewrite forallb_app in *. simpl.
    apply andb_true_iff in Hok as [-> ->]. unfold catchable at 1. simpl.
    rewrite He. reflexivity. }
  do 2 eexists. split; [apply process_multiple_videos_runs; assumption|].
  assert (S : successes (earlier ++ (path, Exc e) :: later) =
              successes (earlier ++ later)).
  { rewrite !successes_app. reflexivity. }
  simpl. rewrite S.
  split; [reflexivity|]. split; [reflexivity|]. split.
  - pose proof (successes_length (earlier ++ later)) as L.
    rewrite length_app in L. lia.
  - intros Hall.
    assert (L : length (successes (earlier ++ later)) = length paths - 1).
    { rewrite <- (length_map (fun r => @Val (option VideoResult) (Some r))),
        successes_all, length_map, length_app by assumption. lia. }
    repeat split; auto. apply successes_all, Hall.
Qed.

Lemma one_fault_does_not_stop_collection_witness :
  exists c w',
    process_multiple_videos ["a.mp4"; "broken.mp4"; "b.mp4"]%string None "out"
      (Some 8)
      [("b.mp4"%string, Sample.result_of Sample.three_people);
       ("broken.mp4"%string, Exc (Fault "RuntimeError" true));
       ("a.mp4"%string, Sample.result_of Sample.two_people)] initial_world
    = (Val c, w')
    /\ length (individual_video_results c) = 2
    /\ total_videos_processed (processing_summary c) = 2
    /\ total_videos_requested (processing_summary c) = 3.
Proof.
  destruct (one_fault_does_not_stop_collection
              ["a.mp4"; "broken.mp4"; "b.mp4"]%string None "out" (Some 8)
              [("b.mp4"%string, Sample.result_of Sample.three_people)]
              [("a.mp4"%string, Sample.result_of Sample.two_people)]
              "broken.mp4"%string (Fault "RuntimeError" true) initial_world)
    as (c & w' & H & _ & R & _ & A).
  - reflexivity.
  - vm_compute. reflexivity.
  - simpl. apply perm_trans with ["broken.mp4"; "b.mp4"; "a.mp4"]%string.
    + apply perm_swap.
    + apply perm_trans with ["broken.mp4"; "a.mp4"; "b.mp4"]%string.
      * apply perm_skip, perm_swap.
      * apply perm_swap.
  - exact I.
  - destruct A as (_ & L & P); [vm_compute; reflexivity|].
    exists c, w'. auto.
Defined.

(** C7.  A video that cannot be opened: the worker returns [None], it
    raises nothing, it has by then created the output directory, loaded
    the models and tried to open the file, and it has written no image and
    no JSON file.  The collecting loop adds nothing for this future to the
    list of results, so that fewer videos are counted as processed than were
    requested. *)
Theorem unopenable_video_is_reported_not_raised
    (v : Video) (out : string) (w : World) :
  capture v = None ->
  let (r, w') := process_single_video v out w in
  r = Val None
  /\ added w w' = [Makedirs (video_output_dir out v); LoadModels; Open (video_path v)]
  /\ filter is_write (added w w') = []
  /\ global_person_counter w' = global_person_counter w
  /\ forall paths max_workers cpu_count earlier later w2 c w3,
       process_multiple_videos paths max_workers out cpu_count
         (earlier ++ (video_path v, r) :: later) w2 = (Val c, w3) ->
       individual_video_results c = successes earlier ++ successes later
       /\ total_videos_processed (processing_summary c) =
          length (successes earlier) + length (successes later)
       /\ (length paths = length (earlier ++ (video_path v, r) :: later) ->
           total_videos_processed (processing_summary c)
           < total_videos_requested (processing_summary c)).
Proof.
  intros Hcap. rewrite process_single_video_unfold, Hcap.
  assert (A : added w (opened v out w) =
              [Makedirs (video_output_dir out v); LoadModels; Open (video_path v)])
    by (apply added_app; reflexivity).
  rewrite A. split; [reflexivity|]. split; [reflexivity|].
  split; [reflexivity|]. split; [reflexivity|].
  intros paths max_workers cpu_count earlier later w2 c w3 H.
  apply process_multiple_videos_Val in H. subst c. simpl.
  rewrite successes_app, !length_app. simpl. repeat split.
  intros ->.
  pose proof (successes_length earlier). pose proof (successes_length later).
  unfold Settled in *. lia.
Qed.

Lemma unopenable_video_is_reported_not_raised_witness :
  process_single_video (Sample.missing "gone") "out" initial_world =
  (Val None,
   {| global_person_counter := new_counter; interleaved := [];
      log := [Makedirs ["out"; "gone"]%string; LoadModels; Open "gone.mp4"] |}).
Proof.
  pose proof (unopenable_video_is_reported_not_raised
                (Sample.missing "gone") "out" initial_world eq_refl) as H.
  destruct (process_single_video (Sample.missing "gone") "out" initial_world)
    as [r w'] eqn:E.
  destruct H as (-> & _). vm_compute in E. injection E as <-. reflexivity.
Defined.

(** C9.  Whatever the finished futures are, as long as the pool can be
    built and no future raises past [except Exception], the summary is
    produced; its per-video list is exactly the list of results that
    workers returned, its count of processed videos is their number, and
    its total of people is the sum of their
    [total_unique_people_detected].  With two videos of 2 and 3 unique
    people, finished in either order, the total is 5 and the per-video
    list has two entries. *)
Theorem total_people_is_sum_over_successes
    (paths : list string) (max_workers : option Z) (out : string)
    (cpu_count : option nat) (done : list Settled) (w : World) :
  (0 < workers_used paths max_workers cpu_count)%Z ->
  forallb catchable done = true ->
  exists c w',
    process_multiple_videos paths max_workers out cpu_count done w = (Val c, w')
    /\ individual_video_results c = successes done
    /\ total_videos_processed (processing_summary c) = length (successes done)
    /\ total_people_detected_across_all_videos (processing_summary c) =
       list_sum (map total_unique_people_detected (successes done))
    /\ forall pa pb ra rb,
         total_unique_people_detected ra = 2 ->
         total_unique_people_detected rb = 3 ->
         Permutation [(pa, Val (Some ra)); (pb, Val (Some rb))] done ->
         total_people_detected_across_all_videos (processing_summary c) = 5
         /\ length (individual_video_results c) = 2.
Proof.
  intros Hw Hc. do 2 eexists.
  split; [apply process_multiple_videos_runs; assumption|].
  simpl. do 3 (split; [reflexivity|]). intros pa pb ra rb Ha Hb P.
  apply Permutation_length_2_inv in P as [->| ->]; simpl;
    rewrite ?Ha, ?Hb; split; reflexivity.
Qed.

Lemma total_people_is_sum_over_successes_witness :
  exists c w',
    process_multiple_videos ["a.mp4"; "b.mp4"]%string (Some 3%Z) "out" (Some 8)
      [("b.mp4"%string, Sample.result_of Sample.three_people);
       ("a.mp4"%string, Sample.result_of Sample.two_people)] initial_world
    = (Val c, w')
    /\ total_people_detected_across_all_videos (processing_summary c) = 5
    /\ length (individual_video_results c) = 2.
Proof.
  destruct (total_people_is_sum_over_successes
              ["a.mp4"; "b.mp4"]%string (Some 3%Z) "out" (Some 8)
              [("b.mp4"%string, Sample.result_of Sample.three_people);
               ("a.mp4"%string, Sample.result_of Sample.two_people)]
              initial_world) as (c & w' & H & E & _ & T & _).
  - reflexivity.
  - reflexivity.
  - exists c, w'. rewrite T, E. split; [exact H|]. vm_compute. auto.
Defined.

(** ** The log of a whole worker run *)

Lemma worker_log v out w :
  let (r, w') := process_single_video v out w in
  match capture v with
  | None => r = Val None /\ added w w' = preamble v out
  | Some s =>
      exists evs k,
        Forall loop_event evs
        /\ k <= length (frames s)
        /\ track_calls evs = sampled_from 0 k
        /\ match r with
           | Val (Some res) =>
               k = length (frames s)
               /\ total_frames_processed res = length (frames s)
               /\ added w w' =
                  preamble v out ++ evs
                  ++ [Release; JsonDump (video_output_dir out v) (results_ (stem v))]
           | Val None => False
           | Exc _ => added w w' = preamble v out ++ evs
           end
  end.
Proof.
  rewrite process_single_video_unfold.
  destruct (capture v) as [s|].
  - destruct (frames_loop_log out v s (frames s) (initial_locals s) (opened v out w))
      as (evs & k & L & F & K & T & C).
    destruct (for_each _ _ _ _) as [[l|e] w1]; cbn [fst snd] in *.
    + exists evs, k. destruct C as [-> C]. repeat split; auto.
      apply added_app. cbn [logged log opened]. rewrite L. cbn [opened logged log].
      unfold preamble. rewrite <- !app_assoc. reflexivity.
    + exists evs, k. repeat split; auto.
      apply added_app. rewrite L. cbn [opened logged log].
      unfold preamble. rewrite <- !app_assoc. reflexivity.
  - split; [reflexivity|]. apply added_app. reflexivity.
Qed.

Lemma loop_events_no_release evs : Forall loop_event evs -> filter is_release evs = [].
Proof.
  induction 1 as [|e evs He _ IH]; simpl; [reflexivity|].
  rewrite IH. destruct e; simpl in He; try contradiction; reflexivity.
Qed.

(** C10.  A video of F frames.  Whatever happens, the frames offered
    to [person_model.track] are, in order and without a gap, the frames
    whose 1-based index is a multiple of 10 among the first k, for some
    k <= F: no other frame is offered.  When the worker returns a
    result, all F frames were decoded, and the frames offered are exactly
    10, 20, ..., 10 * (F / 10): there are F / 10 of them. *)
Theorem detection_runs_on_every_tenth_frame
    (v : Video) (out : string) (w : World) (s : Stream) :
  capture v = Some s ->
  let F := length (frames s) in
  let (r, w') := process_single_video v out w in
  let offered := track_calls (added w w') in
  (exists k, k <= F
     /\ offered = filter (fun i => i mod sampling_stride =? 0) (seq 1 k))
  /\ forall res, r = Val (Some res) ->
       total_frames_processed res = F
       /\ offered = map (fun q => sampling_stride * q) (seq 1 (F / sampling_stride))
       /\ length offered = F / sampling_stride.
Proof.
  intros Hs F. pose proof (worker_log v out w) as H.
  destruct (process_single_video v out w) as [r w']. rewrite Hs in H.
  destruct H as (evs & k & Fe & K & T & C).
  assert (P : track_calls (preamble v out) = []) by reflexivity.
  split.
  - exists k. split; [exact K|]. fold (sampled_from 0 k). rewrite <- T.
    destruct r as [[res|]|e]; [| contradiction |].
    + destruct C as (_ & _ & ->). rewrite !track_calls_app, P, app_nil_r. reflexivity.
    + rewrite C, track_calls_app, P. reflexivity.
  - intros res ->. destruct C as (-> & Ft & ->).
    rewrite !track_calls_app, P, app_nil_r. cbn [app]. rewrite T.
    unfold sampled_from. rewrite every_stride_th. fold F.
    rewrite length_map, length_seq. auto.
Qed.

Lemma detection_runs_on_every_tenth_frame_witness :
  let (r, w') := process_single_video Sample.seen_twice "out" initial_world in
  track_calls (added initial_world w') = [10; 20; 30].
Proof.
  pose proof (detection_runs_on_every_tenth_frame Sample.seen_twice "out"
                initial_world _ eq_refl) as H.
  cbv zeta in H.
  destruct (process_single_video Sample.seen_twice "out" initial_world)
    as [r w'] eqn:E.
  destruct H as [_ H].
  assert (R : exists res, r = Val (Some res)).
  { vm_compute in E. injection E as <- _. eexists. reflexivity. }
  destruct R as [res R]. destruct (H res R) as (_ & -> & _). reflexivity.
Defined.

(** Where [videoCap.release()] is called: on one path only, when the
    frame loop ran to the end of the stream, once, after every call of
    the models and before the per-video JSON file is written.  When the
    stream could not be opened, and when a call in the frame loop raised,
    the worker ends without calling it. *)
Theorem stream_is_released_only_after_the_loop
    (v : Video) (out : string) (w : World) :
  let (r, w') := process_single_video v out w in
  filter is_release (added w w') =
    match r with
    | Val (Some _) => [Release]
    | _ => []
    end
  /\ match r with
     | Val (Some _) =>
         exists evs,
           Forall loop_event evs
           /\ added w w' =
              preamble v out ++ evs
              ++ [Release; JsonDump (video_output_dir out v) (results_ (stem v))]
     | Val None => capture v = None /\ added w w' = preamble v out
     | Exc _ =>
         exists evs, Forall loop_event evs /\ added w w' = preamble v out ++ evs
     end.
Proof.
  pose proof (worker_log v out w) as H.
  destruct (process_single_video v out w) as [r w'].
  destruct (capture v) as [s|].
  - destruct H as (evs & k & Fe & _ & _ & C).
    destruct r as [[res|]|e]; [| contradiction |].
    + destruct C as (_ & _ & ->). split; [|eauto].
      rewrite !filter_app, (loop_events_no_release _ Fe). reflexivity.
    + rewrite C. split; [|eauto].
      rewrite filter_app, (loop_events_no_release _ Fe). reflexivity.
  - destruct H as [-> ->]. auto.
Qed.

(** C8.  The stream is not released on every exit path.  The code
    calls [videoCap.release()] after the frame loop and nowhere else, with
    no [try]/[finally] around the loop: when the tracker raises on the
    second sampled frame (frame 20) of an opened video, the worker ends
    with that exception and the log shows the stream opened and never
    released. *)
Lemma fault_leaves_stream_unreleased :
  let (r, w') := process_single_video Sample.breaks "out" initial_world in
  r = Exc (Fault "RuntimeError" true)
  /\ In (Open "broken.mp4") (log w')
  /\ In (Track 20) (log w')
  /\ ~ In Release (log w').
Proof.
  destruct (process_single_video Sample.breaks "out" initial_world)
    as [r w'] eqn:E.
  vm_compute in E. injection E as <- <-.
  split; [reflexivity|]. split; [simpl; auto|]. split; [simpl; auto 10|].
  simpl. intros H. repeat (destruct H as [H|H]; [discriminate|]). exact H.
Qed.

Lemma at_most_once_NoDup (l : list Z) :
  (forall t, length (filter (Z.eqb t) l) <= 1) -> NoDup l.
Proof.
  induction l as [|x l IH]; intros H; constructor.
  - intros Hin. specialize (H x). simpl in H. rewrite Z.eqb_refl in H.
    simpl in H. assert (E : filter (Z.eqb x) l = []) by
      (destruct (filter (Z.eqb x) l); [reflexivity|simpl in H; lia]).
    assert (I : In x (filter (Z.eqb x) l))
      by (apply filter_In; split; [exact Hin|apply Z.eqb_refl]).
    rewrite E in I. exact I.
  - apply IH. intros t. specialize (H t). simpl in H.
    destruct (Z.eqb t x); simpl in H; lia.
Qed.

Lemma origins_of_id t (ds : list DetectionRecord) (atts : list Attempt) :
  map origin ds = map (fun a => origin_of (occ a)) atts ->
  map origin (filter (has_id t) ds) =
  map origin_of (map occ (filter (fun a => Z.eqb (id_of a) t) atts)).
Proof.
  revert atts. induction ds as [|d ds IH]; intros [|a atts] H;
    cbn [map filter] in *; try discriminate; [reflexivity|].
  injection H as Hd Hds. unfold has_id at 1, id_of at 1.
  assert (E : track_id d = the_id (occ a))
    by (unfold origin, origin_of in Hd; congruence).
  rewrite E. destruct (Z.eqb _ t); cbn [map]; [f_equal|]; auto.
  unfold origin, origin_of. congruence.
Qed.

(** C2, as the code has it.  In a video whose worker returns its
    result, a track id has exactly one record when it has, on some sampled
    frame, a confident person detection whose crop is at least 50 by 50,
    and no record otherwise.  The record is made from the first such
    occurrence: it carries its frame number, confidence and box.  An
    occurrence of a track id that is in the table changes nothing and
    calls nothing. *)
Theorem record_comes_from_first_adequate_occurrence
    (v : Video) (out : string) (w : World) (res : VideoResult) (w' : World)
    (s : Stream) :
  process_single_video v out w = (Val (Some res), w') ->
  capture v = Some s ->
  (forall t,
     map origin (filter (has_id t) (summary_detection_results res)) =
     match first_kept t (occurrences s) with
     | Some o => [origin_of o]
     | None => []
     end)
  /\ NoDup (map track_id (summary_detection_results res))
  /\ tracking_ids_detected res = map track_id (summary_detection_results res)
  /\ forall fr box t l w0,
       dict_mem t (tracked_people l) = true ->
       process_box out v fr (box, t) l w0 = (Val l, w0).
Proof.
  intros Hrun Hs.
  destruct (completed_run _ _ _ _ _ _ Hrun Hs) as (_ & Hids & Ho & _).
  set (atts := attempts _ _ _ _ _) in *.
  assert (First : forall t,
            map origin (filter (has_id t) (summary_detection_results res)) =
            match first_kept t (occurrences s) with
            | Some o => [origin_of o]
            | None => []
            end).
  { intros t. rewrite (origins_of_id t _ _ Ho).
    replace (filter (fun a => Z.eqb (id_of a) t) (filter kept atts))
      with (filter (fun a => kept a && Z.eqb (id_of a) t) atts).
    - unfold atts. rewrite kept_of_id. simpl.
      destruct (first_kept t (occurrences s)); reflexivity.
    - clear. induction atts as [|a atts IH]; simpl; [reflexivity|].
      destruct (kept a); simpl; [destruct (Z.eqb _ _)|]; rewrite IH; reflexivity. }
  assert (Ids : map track_id (summary_detection_results res) =
                map id_of (filter kept atts)).
  { transitivity (map (fun x => fst (fst (fst x)))
                    (map origin (summary_detection_results res))).
    - rewrite map_map. reflexivity.
    - rewrite Ho, map_map. reflexivity. }
  split; [exact First|]. split; [|split; [congruence|]].
  - apply at_most_once_NoDup. intros t.
    pose proof (First t) as F. apply (f_equal (@length _)) in F.
    rewrite length_map in F.
    assert (E : length (filter (Z.eqb t) (map track_id (summary_detection_results res)))
                = length (filter (has_id t) (summary_detection_results res))).
    { clear. induction (summary_detection_results res) as [|d ds IH];
        simpl; [reflexivity|].
      unfold has_id at 1. rewrite (Z.eqb_sym t).
      destruct (Z.eqb (track_id d) t); simpl; rewrite IH; reflexivity. }
    rewrite E, F. destruct (first_kept t (occurrences s)); simpl; lia.
  - intros fr box t l w0 Hin. unfold process_box. rewrite Hin.
    destruct (is_confident_person box); reflexivity.
Qed.

Lemma record_comes_from_first_adequate_occurrence_witness :
  map origin (filter (has_id 7) (Sample.records_of Sample.far_then_near)) =
  [(7%Z, 30, 3 # 4, (100, 100, 300, 400)%Z)].
Proof.
  destruct (process_single_video Sample.far_then_near "out" initial_world)
    as [r w'] eqn:E.
  assert (R : exists res, r = Val (Some res) /\
                          Sample.records_of Sample.far_then_near =
                          summary_detection_results res).
  { unfold Sample.records_of, Sample.result_of. rewrite E. cbn [fst].
    vm_compute in E. injection E as <- _. eexists. split; reflexivity. }
  destruct R as (res & -> & ->).
  destruct (record_comes_from_first_adequate_occurrence _ _ _ _ _ _ E eq_refl)
    as [H _].
  rewrite (H 7%Z). reflexivity.
Defined.

(** C2 as stated fails: track 7 is a confident person on the sampled
    frames 10 and 30, too small on frame 10; its one record is made from
    frame 30, not from its first qualifying occurrence.  When it is too
    small both times it has no record at all. *)
Lemma first_qualifying_occurrence_does_not_always_win :
  (frames_with 7 (occurrences_from 0 (Sample.sampled
       [Sample.showing [(Sample.far, 7%Z)]; Sample.nobody;
        Sample.showing [(Sample.near, 7%Z)]])) = [10; 30]
   /\ option_map at_frame
        (first_qualifying 7 (occurrences_from 0 (Sample.sampled
           [Sample.showing [(Sample.far, 7%Z)]; Sample.nobody;
            Sample.showing [(Sample.near, 7%Z)]]))) = Some 10
   /\ map first_detected_frame
        (filter (has_id 7) (Sample.records_of Sample.far_then_near)) = [30])
  /\ (frames_with 7 (occurrences_from 0 (Sample.sampled
        (repeat (Sample.showing [(Sample.far, 7%Z)]) 2))) = [10; 20]
      /\ filter (has_id 7) (Sample.records_of (Sample.always_far 2)) = []).
Proof. vm_compute. repeat split; reflexivity. Qed.

Lemma all_adequate_all_kept occs : forall seen c g others,
  forallb (fun o => implb (qualifying o) (adequate o)) occs = true ->
  filter kept (attempts seen c g others occs) = attempts seen c g others occs.
Proof.
  induction occs as [|o occs IH]; intros seen c g others H; simpl in *;
    [reflexivity|].
  apply andb_true_iff in H as [Ho Hr].
  destruct (qualifying o); simpl in *; [|apply IH, Hr].
  destruct (known (the_id o) seen); simpl; [apply IH, Hr|].
  rewrite Ho. f_equal. apply IH, Hr.
Qed.

Lemma numbers_local (ds : list DetectionRecord) (atts : list Attempt) :
  map numbers ds = map numbers_of atts ->
  map local_person_number ds = map local_no atts
  /\ map global_person_number ds = map global_no atts.
Proof.
  intros H. split.
  - transitivity (map fst (map numbers ds)); [rewrite map_map; reflexivity|].
    rewrite H, map_map. reflexivity.
  - transitivity (map snd (map numbers ds)); [rewrite map_map; reflexivity|].
    rewrite H, map_map. reflexivity.
Qed.

(** C4, as the code has it.  In a video whose worker returns its
    result, the local person numbers of the records increase strictly in
    the order of the records and lie between 1 and the reported count.
    The first record carries 1 plus the number of attempts dropped for a
    small crop before it; when no confident person of the video has a
    small crop the numbers are 1, 2, 3, ... without a gap. *)
Theorem local_numbers_increase
    (v : Video) (out : string) (w : World) (res : VideoResult) (w' : World)
    (s : Stream) :
  process_single_video v out w = (Val (Some res), w') ->
  capture v = Some s ->
  let locals := map local_person_number (summary_detection_results res) in
  let atts := attempts [] 0 (_value (global_person_counter w)) (interleaved w)
                (occurrences s) in
  StronglySorted lt locals
  /\ Forall (fun n => 1 <= n <= total_unique_people_detected res) locals
  /\ hd_error locals =
     (if existsb kept atts then Some (1 + leading_rejections atts) else None)
  /\ (forallb (fun o => implb (qualifying o) (adequate o)) (occurrences s) = true ->
      locals = seq 1 (length (summary_detection_results res))).
Proof.
  intros Hrun Hs locals atts.
  destruct (completed_run _ _ _ _ _ _ Hrun Hs) as (Hc & _ & _ & Hn & _).
  fold atts in Hc, Hn. apply numbers_local in Hn as [Hl _]. fold locals in Hl.
  pose proof (attempts_local_numbers (occurrences s) [] 0
                (_value (global_person_counter w)) (interleaved w)) as Hseq.
  fold atts in Hseq. simpl in Hseq.
  split; [|split; [|split]].
  - rewrite Hl. apply StronglySorted_map_filter. rewrite Hseq.
    apply StronglySorted_seq.
  - rewrite Hl, Hc. apply Forall_forall. intros n Hin.
    apply in_map_iff in Hin as (a & <- & Ha). apply filter_In in Ha as [Ha _].
    assert (I : In (local_no a) (seq 1 (length atts)))
      by (rewrite <- Hseq; apply in_map, Ha).
    apply in_seq in I. lia.
  - rewrite Hl. destruct (filter kept atts) as [|a rest] eqn:E.
    + assert (X : existsb kept atts = false).
      { destruct (existsb kept atts) eqn:X; [|reflexivity].
        apply existsb_exists in X as (a & Ha & Ka).
        assert (I : In a (filter kept atts)) by (apply filter_In; auto).
        rewrite E in I. contradiction. }
      rewrite X. reflexivity.
    + assert (X : existsb kept atts = true).
      { apply existsb_exists. exists a.
        apply filter_In. rewrite E. left. reflexivity. }
      rewrite X. simpl. f_equal.
      apply (first_kept_local_number _ _ _ _ _ _ _ E).
  - intros Hall.
    assert (K : filter kept atts = atts)
      by (apply all_adequate_all_kept; assumption).
    rewrite K in Hl. rewrite Hl, Hseq. f_equal.
    apply (f_equal (@length _)) in Hl. unfold locals in Hl.
    rewrite !length_map in Hl. auto.
Qed.

Lemma local_numbers_increase_witness :
  map local_person_number (Sample.records_of Sample.three_people) = [1; 2; 3].
Proof.
  destruct (process_single_video Sample.three_people "out" initial_world)
    as [r w'] eqn:E.
  assert (R : exists res, r = Val (Some res) /\
                          Sample.records_of Sample.three_people =
                          summary_detection_results res).
  { unfold Sample.records_of, Sample.result_of. rewrite E. cbn [fst].
    vm_compute in E. injection E as <- _. eexists. split; reflexivity. }
  destruct R as (res & -> & R).
  destruct (local_numbers_increase _ _ _ _ _ _ E eq_refl) as (_ & _ & _ & H).
  rewrite R, H by reflexivity. rewrite <- R. reflexivity.
Defined.

(** C4 as stated fails: track 7 is dropped for its small crop on frame
    10 and recorded on frame 30; the first and only record of the video
    carries local person number 2. *)
Lemma first_record_need_not_carry_1 :
  exists res w' d,
    process_single_video Sample.far_then_near "out" initial_world =
      (Val (Some res), w')
    /\ hd_error (summary_detection_results res) = Some d
    /\ first_detected_frame d = 30
    /\ local_person_number d = 2.
Proof. do 3 eexists. vm_compute. repeat split; reflexivity. Qed.

Lemma kept_or_rejected (atts : list Attempt) :
  length (filter kept atts) + length (filter rejected atts) = length atts.
Proof.
  unfold rejected. induction atts as [|a atts IH]; simpl; [reflexivity|].
  destruct (kept a); simpl; lia.
Qed.

Lemma NoDup_map_eq {A B} (f : A -> B) (l : list A) a b :
  NoDup (map f l) -> In a l -> In b l -> f a = f b -> a = b.
Proof.
  induction l as [|x l IH]; simpl; intros N Ha Hb E; [contradiction|].
  inversion N as [|? ? Nx Nl]; subst.
  destruct Ha as [->|Ha], Hb as [->|Hb]; auto.
  - exfalso. apply Nx. rewrite E. apply in_map, Hb.
  - exfalso. apply Nx. rewrite <- E. apply in_map, Ha.
Qed.

(** C5.  In a video whose worker returns its result, the reported
    [total_unique_people_detected] is the number of attempts: the times a
    confident person of a track id without a record was met on a sampled
    frame, dropped for a small crop or not.  It is the number of records
    plus the number of dropped attempts.  Every attempt took a local
    number and a global number of its own: the attempts of one track id
    that were dropped hold pairwise different local numbers and pairwise
    different global numbers, within the range the two counters moved
    over, and none of them shows in a record.  The reported count is the
    summand of this video in the total of the combined summary. *)
Theorem count_includes_dropped_attempts
    (v : Video) (out : string) (w : World) (res : VideoResult) (w' : World)
    (s : Stream) :
  process_single_video v out w = (Val (Some res), w') ->
  capture v = Some s ->
  let g := _value (global_person_counter w) in
  let atts := attempts [] 0 g (interleaved w) (occurrences s) in
  let records := summary_detection_results res in
  total_unique_people_detected res = length atts
  /\ total_unique_people_detected res = length records + length (filter rejected atts)
  /\ map numbers records = map numbers_of (filter kept atts)
  /\ (forall t,
        let dropped := filter (fun a => rejected a && Z.eqb (id_of a) t) atts in
        NoDup (map local_no dropped)
        /\ NoDup (map global_no dropped)
        /\ Forall (fun a =>
                     1 <= local_no a <= total_unique_people_detected res
                     /\ g < global_no a <= _value (global_person_counter w')
                     /\ ~ In (local_no a) (map local_person_number records)
                     /\ ~ In (global_no a) (map global_person_number records))
             dropped)
  /\ (forall paths max_workers cpu_count done w2 c w3,
        process_multiple_videos paths max_workers out cpu_count done w2 = (Val c, w3) ->
        In (video_path v, Val (Some res)) done ->
        In res (individual_video_results c)
        /\ total_people_detected_across_all_videos (processing_summary c) =
           list_sum (map total_unique_people_detected (individual_video_results c))).
Proof.
  intros Hrun Hs g atts records.
  destruct (completed_run _ _ _ _ _ _ Hrun Hs) as (Hc & _ & Ho & Hn & _ & Hg & _).
  fold g atts records in Hc, Ho, Hn, Hg.
  pose proof (attempts_local_numbers (occurrences s) [] 0 g (interleaved w)) as Hseq.
  destruct (attempts_global_numbers (occurrences s) [] 0 g (interleaved w))
    as [Gs Gf].
  fold atts in Hseq, Gs, Gf. simpl in Hseq.
  destruct (counter_after_bounds g atts Gf Gs) as [_ Gb]. rewrite <- Hg in Gb.
  destruct (numbers_local _ _ Hn) as [Hl Hgl].
  assert (Ls : StronglySorted lt (map local_no atts))
    by (rewrite Hseq; apply StronglySorted_seq).
  split; [exact Hc|]. split; [|split; [exact Hn|split]].
  - rewrite Hc, <- (kept_or_rejected atts). f_equal.
    apply (f_equal (@length _)) in Ho. rewrite !length_map in Ho. auto.
  - intros t dropped. split; [|split].
    + apply StronglySorted_lt_NoDup, StronglySorted_map_filter, Ls.
    + apply StronglySorted_lt_NoDup, StronglySorted_map_filter, Gs.
    + apply Forall_forall. intros a Ha.
      apply filter_In in Ha as [Ha Hr]. apply andb_true_iff in Hr as [Hr _].
      unfold rejected in Hr.
      assert (I : In (local_no a) (seq 1 (length atts)))
        by (rewrite <- Hseq; apply in_map, Ha).
      apply in_seq in I.
      rewrite Forall_forall in Gf, Gb.
      pose proof (Gf _ (in_map global_no _ _ Ha)).
      pose proof (Gb _ (in_map global_no _ _ Ha)).
      split; [lia|]. split; [lia|]. split.
      * rewrite Hl. intros X. apply in_map_iff in X as (b & E & Hb).
        apply filter_In in Hb as [Hb Kb].
        assert (b = a)
          by (apply (NoDup_map_eq local_no atts); auto;
              apply StronglySorted_lt_NoDup, Ls).
        subst b. rewrite Kb in Hr. discriminate.
      * rewrite Hgl. intros X. apply in_map_iff in X as (b & E & Hb).
        apply filter_In in Hb as [Hb Kb].
        assert (b = a)
          by (apply (NoDup_map_eq global_no atts); auto;
              apply StronglySorted_lt_NoDup, Gs).
        subst b. rewrite Kb in Hr. discriminate.
  - intros paths max_workers cpu_count done w2 c w3 Hp Hin.
    apply process_multiple_videos_Val in Hp. subst c. simpl. split; [|reflexivity].
    unfold successes. apply in_flat_map.
    exists (video_path v, Val (Some res)). split; [exact Hin|]. simpl. auto.
Qed.

Lemma count_includes_dropped_attempts_witness :
  exists res w',
    process_single_video (Sample.always_far 3) "out" initial_world =
      (Val (Some res), w')
    /\ total_unique_people_detected res = 3
    /\ summary_detection_results res = []
    /\ _value (global_person_counter w') = 3.
Proof.
  destruct (process_single_video (Sample.always_far 3) "out" initial_world)
    as [r w'] eqn:E.
  assert (R : exists res, r = Val (Some res)
                          /\ summary_detection_results res = []
                          /\ _value (global_person_counter w') = 3).
  { vm_compute in E. injection E as <- <-. eexists. repeat split. }
  destruct R as (res & -> & D & G).
  destruct (count_includes_dropped_attempts _ _ _ _ _ _ E eq_refl) as (H & _).
  exists res, w'. rewrite H. repeat split; auto.
Defined.

(* ================================================================= *)
(** * Further properties of the code *)

(** ** The crop *)

Lemma slice_len_le n lo hi : slice_len n lo hi <= n.
Proof.
  unfold slice_len, slice_bound.
  destruct (Z.ltb_spec hi 0), (Z.ltb_spec lo 0); lia.
Qed.

(** X1.  The crop [frame[y1:y2, x1:x2]] is never higher or wider than the
    frame, whatever the corners of the box.  For a box whose corners lie
    inside the frame, in order, the crop is [y2 - y1] high and [x2 - x1]
    wide. *)
Theorem crop_is_the_box_clipped_to_the_frame
    (fr : Frame) (box : Box) (x1 y1 x2 y2 : Z) :
  xyxy box = (x1, y1, x2, y2) ->
  (fst (person_roi_shape fr box) <= fst (shape fr)
   /\ snd (person_roi_shape fr box) <= snd (shape fr))
  /\ ((0 <= y1 <= y2)%Z -> (y2 <= Z.of_nat (fst (shape fr)))%Z ->
      (0 <= x1 <= x2)%Z -> (x2 <= Z.of_nat (snd (shape fr)))%Z ->
      person_roi_shape fr box = (Z.to_nat (y2 - y1), Z.to_nat (x2 - x1))).
Proof.
  intros E. unfold person_roi_shape. rewrite E. cbn [fst snd].
  split; [split; apply slice_len_le|].
  intros Hy Hy2 Hx Hx2. unfold slice_len, slice_bound.
  destruct (Z.ltb_spec y2 0), (Z.ltb_spec y1 0), (Z.ltb_spec x2 0),
    (Z.ltb_spec x1 0); try lia.
  f_equal; f_equal; lia.
Qed.

Lemma crop_is_the_box_clipped_to_the_frame_witness :
  person_roi_shape (Sample.showing []) Sample.near = (300, 200).
Proof.
  destruct (crop_is_the_box_clipped_to_the_frame (Sample.showing [])
              Sample.near 100 100 300 400 eq_refl) as [_ H].
  rewrite H; [reflexivity | simpl; lia ..].
Defined.

(** ** The worker count and the collecting loop *)

(** X2.  When [max_workers] is not given and there is at least one
    video, the pool gets between 1 and 4 workers, never more than there
    are videos, and never more than [os.cpu_count()] when that is known
    and positive. *)
Theorem default_worker_count_is_bounded
    (video_paths : list string) (cpu_count : option nat) :
  video_paths <> [] ->
  (1 <= default_workers video_paths cpu_count <= 4)%Z
  /\ (default_workers video_paths cpu_count <= Z.of_nat (length video_paths))%Z
  /\ (forall n, cpu_count = Some (S n) ->
        (default_workers video_paths cpu_count <= Z.of_nat (S n))%Z)
  /\ (cpu_count = None \/ cpu_count = Some 0 ->
        default_workers video_paths cpu_count = 1%Z).
Proof.
  intros H. unfold default_workers.
  destruct video_paths as [|p ps]; [congruence|]. cbn [length].
  repeat split; try (destruct cpu_count as [[|n]|]; lia).
  - intros n ->. lia.
  - intros [-> | ->]; lia.
Qed.

Lemma default_worker_count_is_bounded_witness :
  default_workers ["a.mp4"; "b.mp4"]%string None = 1%Z.
Proof.
  destruct (default_worker_count_is_bounded ["a.mp4"; "b.mp4"]%string None)
    as (_ & _ & _ & H); [discriminate|].
  apply H. left. reflexivity.
Defined.

(** X3.  A worker count below one ends [process_multiple_videos] with
    a [ValueError] from the pool: no future is looked at and no combined
    JSON file is written; the output directory has been created.  That is
    the case for an empty list of videos when [max_workers] is not given. *)
Theorem pool_refuses_a_worker_count_below_one
    (paths : list string) (max_workers : option Z) (out : string)
    (cpu_count : option nat) (done : list Settled) (w : World) :
  (workers_used paths max_workers cpu_count <= 0)%Z ->
  let (r, w') := process_multiple_videos paths max_workers out cpu_count done w in
  r = Exc ValueError /\ added w w' = [Makedirs [out]].
Proof.
  intros H. rewrite process_multiple_videos_unfold.
  destruct (Z.leb_spec (workers_used paths max_workers cpu_count) 0); [|lia].
  split; [reflexivity|]. apply added_app. reflexivity.
Qed.

Lemma pool_refuses_a_worker_count_below_one_witness :
  fst (process_multiple_videos [] None "out" (Some 8) [] initial_world)
  = Exc ValueError.
Proof.
  pose proof (pool_refuses_a_worker_count_below_one [] None "out" (Some 8) []
                initial_world) as H.
  destruct (process_multiple_videos [] None "out" (Some 8) [] initial_world).
  apply H. vm_compute. discriminate.
Defined.

Lemma collect_loop_passes fs : forall later e acc w,
  forallb catchable fs = true ->
  is_Exception e = false ->
  forall path,
    for_each collect (fs ++ (path, Exc e) :: later) acc w = (Exc e, w).
Proof.
  induction fs as [|f fs IH]; intros later e acc w Hc He path; simpl in *.
  - unfold bind, collect. simpl. rewrite He. reflexivity.
  - apply andb_true_iff in Hc as [Hf Hfs]. unfold bind at 1.
    unfold catchable in Hf. unfold collect at 1.
    destruct (snd f) as [[r|]|e']; simpl; try (apply IH; assumption).
    rewrite Hf. simpl. apply IH; assumption.
Qed.

(** X4.  An exception of a worker that is not an [Exception] (a
    [KeyboardInterrupt], a [SystemExit]) is not caught by the collecting
    loop: [process_multiple_videos] ends with that exception when it comes
    to that future, whatever was collected before it, the futures after
    it are not looked at, and no combined JSON file is written. *)
Theorem base_exception_ends_the_run
    (paths : list string) (max_workers : option Z) (out : string)
    (cpu_count : option nat) (earlier later : list Settled)
    (path : string) (e : exn) (w : World) :
  (0 < workers_used paths max_workers cpu_count)%Z ->
  forallb catchable earlier = true ->
  is_Exception e = false ->
  let (r, w') := process_multiple_videos paths max_workers out cpu_count
                   (earlier ++ (path, Exc e) :: later) w in
  r = Exc e /\ added w w' = [Makedirs [out]].
Proof.
  intros Hw Hc He. rewrite process_multiple_videos_unfold.
  destruct (Z.leb_spec (workers_used paths max_workers cpu_count) 0); [lia|].
  rewrite collect_loop_passes by assumption.
  split; [reflexivity|]. apply added_app. reflexivity.
Qed.

Lemma base_exception_ends_the_run_witness :
  fst (process_multiple_videos ["a.mp4"; "b.mp4"]%string (Some 2%Z) "out" None
         [("a.mp4"%string, Sample.result_of Sample.two_people);
          ("b.mp4"%string, Exc (Fault "KeyboardInterrupt" false))]
         initial_world)
  = Exc (Fault "KeyboardInterrupt" false).
Proof.
  pose proof (base_exception_ends_the_run ["a.mp4"; "b.mp4"]%string (Some 2%Z)
                "out" None
                [("a.mp4"%string, Sample.result_of Sample.two_people)] []
                "b.mp4"%string (Fault "KeyboardInterrupt" false) initial_world)
    as H.
  cbn [app] in H.
  destruct (process_multiple_videos _ _ _ _ _ _).
  apply H; reflexivity.
Defined.

Lemma successes_perm fs fs' :
  Permutation fs fs' -> Permutation (successes fs) (successes fs').
Proof.
  unfold successes. induction 1; simpl.
  - constructor.
  - apply Permutation_app_head. assumption.
  - rewrite !app_assoc. apply Permutation_app_tail, Permutation_app_comm.
  - etransitivity; eassumption.
Qed.

Lemma list_sum_perm l l' : Permutation l l' -> list_sum l = list_sum l'.
Proof. induction 1; simpl; lia. Qed.

(** X5.  The order in which the futures complete changes the order
    of the per-video list and nothing else: two runs over the same
    finished futures, delivered in different orders, return summaries with
    the same results up to order, the same count of processed videos and
    the same total of people. *)
Theorem completion_order_only_reorders
    (paths : list string) (max_workers : option Z) (out : string)
    (cpu_count : option nat) (done done' : list Settled) (w : World)
    (c c' : CombinedResult) (w1 w1' : World) :
  Permutation done done' ->
  process_multiple_videos paths max_workers out cpu_count done w = (Val c, w1) ->
  process_multiple_videos paths max_workers out cpu_count done' w = (Val c', w1') ->
  Permutation (individual_video_results c) (individual_video_results c')
  /\ processing_summary c = processing_summary c'
  /\ w1 = w1'.
Proof.
  intros P H H'.
  pose proof (process_multiple_videos_Val _ _ _ _ _ _ _ _ H) as E.
  pose proof (process_multiple_videos_Val _ _ _ _ _ _ _ _ H') as E'.
  pose proof (successes_perm _ _ P) as PS.
  split; [subst; exact PS|]. split.
  - subst. unfold combined. cbn [processing_summary]. f_equal.
    + apply Permutation_length, PS.
    + apply list_sum_perm, Permutation_map, PS.
  - rewrite process_multiple_videos_unfold in H, H'.
    destruct (_ <=? 0)%Z; [discriminate|].
    destruct (for_each collect done [] _) as [[a|x] u] eqn:F; [|discriminate].
    destruct (for_each collect done' [] _) as [[a'|x'] u'] eqn:F'; [|discriminate].
    apply collect_loop_Val in F as [_ ->]. apply collect_loop_Val in F' as [_ ->].
    congruence.
Qed.

Lemma completion_order_only_reorders_witness :
  exists c c' w1,
    process_multiple_videos ["a.mp4"; "b.mp4"]%string None "out" (Some 8)
      [("a.mp4"%string, Sample.result_of Sample.two_people);
       ("b.mp4"%string, Sample.result_of Sample.three_people)] initial_world
    = (Val c, w1)
    /\ process_multiple_videos ["a.mp4"; "b.mp4"]%string None "out" (Some 8)
      [("b.mp4"%string, Sample.result_of Sample.three_people);
       ("a.mp4"%string, Sample.result_of Sample.two_people)] initial_world
    = (Val c', w1)
    /\ processing_summary c = processing_summary c'.
Proof.
  assert (W : (0 < workers_used ["a.mp4"; "b.mp4"]%string None (Some 8%nat))%Z)
    by reflexivity.
  pose proof (process_multiple_videos_runs ["a.mp4"; "b.mp4"]%string None "out"
                (Some 8)
                [("a.mp4"%string, Sample.result_of Sample.two_people);
                 ("b.mp4"%string, Sample.result_of Sample.three_people)]
                initial_world W eq_refl) as H1.
  pose proof (process_multiple_videos_runs ["a.mp4"; "b.mp4"]%string None "out"
                (Some 8)
                [("b.mp4"%string, Sample.result_of Sample.three_people);
                 ("a.mp4"%string, Sample.result_of Sample.two_people)]
                initial_world W eq_refl) as H2.
  do 3 eexists. split; [exact H1|]. split; [exact H2|].
  exact (proj1 (proj2 (completion_order_only_reorders _ _ _ _ _ _ _ _ _ _ _
                         (perm_swap _ _ _) H1 H2))).
Defined.

(** ** Records and the outside calls that go with them *)

Lemma for_each_closure {A S} (R : S -> World -> S -> World -> Prop)
    (body : A -> S -> M S) :
  (forall s w, R s w s w) ->
  (forall s1 w1 s2 w2 s3 w3, R s1 w1 s2 w2 -> R s2 w2 s3 w3 -> R s1 w1 s3 w3) ->
  forall xs,
    (forall x s w s' w', In x xs -> body x s w = (Val s', w') -> R s w s' w') ->
    forall s w s' w', for_each body xs s w = (Val s', w') -> R s w s' w'.
Proof.
  intros Rrefl Rtrans xs. induction xs as [|x xs IH]; intros Hb s w s' w' H.
  - injection H as <- <-. apply Rrefl.
  - simpl in H. apply bind_Val in H as (s1 & w1 & H1 & H2).
    eapply Rtrans.
    + apply (Hb x); [left; reflexivity|exact H1].
    + apply IH; [|exact H2]. intros y t u t' u' Hy. apply Hb. right. exact Hy.
Qed.

Lemma grows_refl dir v l w : grows dir v l w l w.
Proof. exists [], []. rewrite !app_nil_r. repeat split; constructor. Qed.

Lemma grows_same dir v l w l' w' :
  detection_results l' = detection_results l -> log w' = log w ->
  grows dir v l w l' w'.
Proof.
  intros D L. exists [], []. rewrite !app_nil_r. repeat split; auto; constructor.
Qed.

Lemma grows_trans dir v l1 w1 l2 w2 l3 w3 :
  grows dir v l1 w1 l2 w2 -> grows dir v l2 w2 l3 w3 -> grows dir v l1 w1 l3 w3.
Proof.
  intros (n1 & e1 & D1 & L1 & F1 & W1) (n2 & e2 & D2 & L2 & F2 & W2).
  exists (n1 ++ n2), (e1 ++ e2).
  rewrite D2, D1, L2, L1, filter_app, flat_map_app, F1, F2, !app_assoc.
  repeat split. apply Forall_app. auto.
Qed.

(** Above a threshold, above every lower one. *)
Lemma Qgtb_below x y z : (z <= y)%Q -> Qgtb x y = true -> Qgtb x z = true.
Proof.
  unfold Qgtb. intros Hzy H. apply negb_true_iff in H. apply negb_true_iff.
  destruct (Qle_bool x z) eqn:E; [|reflexivity].
  apply Qle_bool_iff in E.
  assert (L : Qle_bool x y = true) by (apply Qle_bool_iff; eapply Qle_trans; eauto).
  congruence.
Qed.

Lemma tshirt_info_confident r :
  Forall (fun p => Qgtb (snd p) (3 # 10) = true) (tshirt_info_of r).
Proof.
  unfold tshirt_info_of. destruct (tshirt_boxes r) as [bs|]; [|constructor].
  induction bs as [|b bs IH]; simpl; [constructor|].
  destruct (Qgtb (tshirt_conf b) float32_0_3) eqn:E; simpl; auto.
  constructor; [|exact IH]. simpl.
  apply (Qgtb_below _ float32_0_3); [discriminate|exact E].
Qed.

Lemma process_box_grows out v fr bt l w l' w' :
  process_box out v fr bt l w = (Val l', w') ->
  grows (video_output_dir out v) v l w l' w'.
Proof.
  destruct bt as [box tid]. unfold process_box.
  destruct (is_confident_person box);
    [|intros H; injection H as <- <-; apply grows_refl].
  destruct (dict_mem tid (tracked_people l));
    [intros H; injection H as <- <-; apply grows_refl|].
  unfold bind, global_increment, increment. simpl.
  destruct (too_small fr box); simpl.
  - intros H; injection H as <- <-. exists [], []. simpl.
    rewrite !app_nil_r. repeat split; constructor.
  - unfold call, answer, bind, emit, ret, raise. simpl.
    destruct (tshirt_answer box) as [t|e]; [|discriminate].
    destruct (person_write box) as [[]|e]; [|discriminate].
    destruct (plot t) as [[|]|e]; simpl; [| |discriminate].
    + destruct (plot_again t) as [[]|e]; [|discriminate].
      destruct (annotated_write box) as [[]|e]; [|discriminate].
      simpl; intros H; injection H as <- <-; simpl.
      eexists [_], [_; _; _]. simpl. rewrite <- !app_assoc. simpl.
      repeat split. constructor; [|constructor].
      unfold well_formed. simpl. repeat split; auto.
      apply tshirt_info_confident.
    + intros H; injection H as <- <-; simpl.
      eexists [_], [_; _]. simpl. rewrite <- !app_assoc. simpl.
      repeat split. constructor; [|constructor].
      unfold well_formed. simpl. repeat split; auto.
      apply tshirt_info_confident.
Qed.

Lemma process_result_grows out v fr r l w l' w' :
  process_result out v fr r l w = (Val l', w') ->
  grows (video_output_dir out v) v l w l' w'.
Proof.
  unfold process_result.
  destruct (boxes r) as [bs|]; [destruct (id bs) as [ids|]|];
    try (intros H; injection H as <- <-; apply grows_refl).
  apply for_each_closure; [apply grows_refl|apply grows_trans|].
  intros. eapply process_box_grows; eassumption.
Qed.

Lemma process_frame_grows out v s fr l w l' w' :
  process_frame out v s fr l w = (Val l', w') ->
  grows (video_output_dir out v) v l w l' w'.
Proof.
  rewrite process_frame_unfold.
  destruct (negb _).
  - intros H; injection H as <- <-. apply grows_same; reflexivity.
  - destruct (report_progress s fr (next_frame l) w) as [[l1|e] w0] eqn:Hp;
      [|discriminate].
    apply report_progress_Val in Hp as (-> & D1 & _).
    destruct (track_answer fr) as [rs|e]; [|discriminate].
    intros H.
    apply (for_each_closure (grows (video_output_dir out v) v)) in H;
      [|apply grows_refl|apply grows_trans
       |intros; eapply process_result_grows; eassumption].
    destruct H as (new & evs & D & L & F & W).
    exists new, (Track (frame_number l1) :: evs).
    rewrite D, D1, L. simpl. rewrite <- app_assoc. auto.
Qed.

(** A worker that returns: its records and its outside calls. *)
Lemma completed_run_log v out w res w' :
  process_single_video v out w = (Val (Some res), w') ->
  exists evs,
    added w w' = preamble v out ++ evs
                 ++ [Release; JsonDump (video_output_dir out v) (results_ (stem v))]
    /\ filter is_box_event evs =
       flat_map (record_events (video_output_dir out v)) (summary_detection_results res)
    /\ Forall (well_formed v) (summary_detection_results res).
Proof.
  intros H.
  apply process_single_video_Some in H as (s & l & w1 & Hs & Hrun & -> & ->).
  apply (for_each_closure (grows (video_output_dir out v) v)) in Hrun;
    [|apply grows_refl|apply grows_trans
     |intros; eapply process_frame_grows; eassumption].
  destruct Hrun as (new & evs & D & L & F & W). simpl in D.
  exists evs. simpl. rewrite D. repeat split; auto.
  apply added_app. simpl. rewrite L. simpl. unfold preamble.
  rewrite <- !app_assoc. reflexivity.
Qed.

Lemma image_writes_app a b : image_writes (a ++ b) = image_writes a ++ image_writes b.
Proof. unfold image_writes. apply flat_map_app. Qed.

Lemma image_writes_filter evs :
  image_writes (filter is_box_event evs) = image_writes evs.
Proof.
  induction evs as [|e evs IH]; simpl; [reflexivity|].
  destruct e; simpl; rewrite ?IH; reflexivity.
Qed.

Lemma image_writes_records dir ds :
  image_writes (flat_map (record_events dir) ds) = flat_map (images_of dir) ds.
Proof.
  induction ds as [|d ds IH]; simpl; [reflexivity|].
  rewrite <- IH. unfold images_of.
  destruct (annotated_image d); simpl; rewrite ?image_writes_app; reflexivity.
Qed.

(** X6.  A worker that returns its result has run the t-shirt model
    once for each record and for nothing else, and has written, right after
    each of these calls, the image of that record and then its annotated
    image when the record names one: the image files written are exactly
    the files the records name, in the order of the records, all in the
    output directory of the video. *)
Theorem outside_calls_match_the_records
    (v : Video) (out : string) (w : World) (res : VideoResult) (w' : World) :
  process_single_video v out w = (Val (Some res), w') ->
  filter is_box_event (added w w') =
    flat_map (record_events (video_output_dir out v)) (summary_detection_results res)
  /\ image_writes (added w w') =
     flat_map (images_of (video_output_dir out v)) (summary_detection_results res)
  /\ Forall (fun pf => fst pf = video_output_dir out v)
       (image_writes (added w w')).
Proof.
  intros H. destruct (completed_run_log _ _ _ _ _ H) as (evs & A & F & _).
  assert (B : filter is_box_event (added w w') =
              flat_map (record_events (video_output_dir out v))
                (summary_detection_results res)).
  { rewrite A, !filter_app, F. simpl. rewrite app_nil_r. reflexivity. }
  assert (I : image_writes (added w w') =
              flat_map (images_of (video_output_dir out v))
                (summary_detection_results res)).
  { rewrite <- image_writes_filter, B. apply image_writes_records. }
  split; [exact B|]. split; [exact I|]. rewrite I.
  apply Forall_forall. intros pf Hin.
  apply in_flat_map in Hin as (d & _ & Hd). unfold images_of in Hd.
  destruct Hd as [<-|Hd]; [reflexivity|].
  destruct (annotated_image d); [|contradiction].
  destruct Hd as [<-|[]]. reflexivity.
Qed.

Lemma outside_calls_match_the_records_witness :
  exists res w',
    process_single_video Sample.two_people "out" initial_world = (Val (Some res), w')
    /\ image_writes (added initial_world w') =
       [ (["out"; "a"]%string, person_global_ 1 1 10 0);
         (["out"; "a"]%string, annotated_global_ 1 1 10 0);
         (["out"; "a"]%string, person_global_ 2 2 10 0);
         (["out"; "a"]%string, annotated_global_ 2 2 10 0) ].
Proof.
  destruct (process_single_video Sample.two_people "out" initial_world)
    as [r w'] eqn:E.
  assert (R : exists res, r = Val (Some res)
              /\ flat_map (images_of ["out"; "a"]%string) (summary_detection_results res)
                 = [ (["out"; "a"]%string, person_global_ 1 1 10 0);
                     (["out"; "a"]%string, annotated_global_ 1 1 10 0);
                     (["out"; "a"]%string, person_global_ 2 2 10 0);
                     (["out"; "a"]%string, annotated_global_ 2 2 10 0) ]).
  { vm_compute in E. injection E as <- _. eexists. split; reflexivity. }
  destruct R as (res & -> & I).
  destruct (outside_calls_match_the_records _ _ _ _ _ E) as (_ & H & _).
  exists res, w'. split; [reflexivity|]. rewrite H. exact I.
Defined.

(** ** What every record satisfies *)

Lemma attempts_sound occs : forall seen c g others a,
  In a (attempts seen c g others occs) ->
  In (occ a) occs /\ qualifying (occ a) = true /\ kept a = adequate (occ a).
Proof.
  induction occs as [|o occs IH]; intros seen c g others a; simpl;
    [contradiction|].
  destruct (qualifying o) eqn:Q; simpl.
  - destruct (known (the_id o) seen); simpl.
    + intros H. apply IH in H as (I & R). auto.
    + intros [<-|H]; [simpl; auto|]. apply IH in H as (I & R). auto.
  - intros H. apply IH in H as (I & R). auto.
Qed.

Lemma occurrences_from_sound fs : forall n o,
  In o (occurrences_from n fs) ->
  n < at_frame o <= n + length fs
  /\ at_frame o mod sampling_stride = 0
  /\ nth_error fs (at_frame o - n - 1) = Some (in_frame o).
Proof.
  induction fs as [|fr fs IH]; intros n o; cbn [occurrences_from length];
    [contradiction|].
  intros H. apply in_app_or in H as [H|H].
  - destruct (S n mod sampling_stride =? 0) eqn:E; [|contradiction].
    unfold occurrences_in in H. apply in_map_iff in H as (bt & <- & _).
    cbn [at_frame in_frame]. apply Nat.eqb_eq in E.
    replace (S n - n - 1) with 0 by lia. repeat split; auto; lia.
  - apply IH in H as (B & M & N). split; [lia|]. split; [exact M|].
    replace (at_frame o - n - 1) with (S (at_frame o - S n - 1)) by lia.
    exact N.
Qed.

Lemma record_has_attempt (ds : list DetectionRecord) (atts : list Attempt) d :
  map origin ds = map (fun a => origin_of (occ a)) atts ->
  In d ds -> exists a, In a atts /\ origin d = origin_of (occ a).
Proof.
  intros E H. apply (in_map origin) in H. rewrite E in H.
  apply in_map_iff in H as (a & Ea & Ha). eauto.
Qed.

(** X7.  Every record of a worker that returns its result comes from a
    sampled frame of the video (a frame number that is a multiple of 10,
    between 1 and the number of frames read), has a person confidence
    above 0.4, has a box whose crop from that frame is at least 50 by 50,
    names the video by its stem, names its image files after its own
    global number, track id, frame and time stamp, and lists only t-shirt
    detections of confidence above 0.3. *)
Theorem every_record_is_a_confident_large_detection
    (v : Video) (out : string) (w : World) (res : VideoResult) (w' : World)
    (s : Stream) :
  process_single_video v out w = (Val (Some res), w') ->
  capture v = Some s ->
  Forall (fun d =>
            Qgtb (person_confidence d) (4 # 10) = true
            /\ first_detected_frame d mod sampling_stride = 0
            /\ 1 <= first_detected_frame d <= total_frames_processed res
            /\ (exists fr,
                  nth_error (frames s) (first_detected_frame d - 1) = Some fr
                  /\ large_enough fr (bounding_box d))
            /\ well_formed v d)
    (summary_detection_results res).
Proof.
  intros Hrun Hs.
  destruct (completed_run _ _ _ _ _ _ Hrun Hs) as (_ & _ & Ho & _ & Hf & _).
  destruct (completed_run_log _ _ _ _ _ Hrun) as (_ & _ & _ & Hw).
  rewrite Forall_forall in *. intros d Hd.
  destruct (record_has_attempt _ _ _ Ho Hd) as (a & Ha & E).
  apply filter_In in Ha as [Ha Ka].
  apply attempts_sound in Ha as (Io & Q & K). rewrite Ka in K.
  apply occurrences_from_sound in Io as (B & M & N).
  unfold origin, origin_of in E. injection E as E1 E2 E3 E4.
  rewrite E2, E3, E4, Hf.
  split; [|split; [exact M|split; [lia|split; [|apply Hw, Hd]]]].
  - unfold qualifying, is_confident_person in Q.
    apply andb_true_iff in Q as [Q _].
    apply (Qgtb_below _ float32_0_4); [discriminate|exact Q].
  - exists (in_frame (occ a)). split.
    + replace (at_frame (occ a) - 1) with (at_frame (occ a) - 0 - 1) by lia.
      exact N.
    + unfold adequate, too_small, person_roi_shape in K.
      unfold large_enough.
      destruct (xyxy (the_box (occ a))) as [[[x1 y1] x2] y2]. simpl in K.
      symmetry in K. apply negb_true_iff, orb_false_iff in K as [K1 K2].
      apply Nat.ltb_ge in K1, K2. auto.
Qed.

Lemma every_record_is_a_confident_large_detection_witness :
  Forall (fun d => first_detected_frame d mod sampling_stride = 0)
    (Sample.records_of Sample.three_people).
Proof.
  destruct (process_single_video Sample.three_people "out" initial_world)
    as [r w'] eqn:E.
  assert (R : exists res, r = Val (Some res) /\
                          Sample.records_of Sample.three_people =
                          summary_detection_results res).
  { unfold Sample.records_of, Sample.result_of. rewrite E. cbn [fst].
    vm_compute in E. injection E as <- _. eexists. split; reflexivity. }
  destruct R as (res & -> & ->).
  pose proof (every_record_is_a_confident_large_detection _ _ _ _ _ _ E eq_refl)
    as H.
  eapply Forall_impl; [|exact H]. simpl. intros d (_ & M & _). exact M.
Defined.

Lemma last_above (l : list nat) : forall g,
  StronglySorted lt l -> Forall (fun n => g < n) l -> g + length l <= last l g.
Proof.
  induction l as [|x l IH]; intros g Hs Hf; [simpl; lia|].
  inversion Hs as [|? ? Sl Sx]; inversion Hf as [|? ? Fx Fl]; subst.
  rewrite last_cons. specialize (IH x Sl Sx). simpl. lia.
Qed.

(** X8.  In the records of a worker that returns its result the global
    person numbers increase strictly, whatever the other workers do to
    the counter in between; each lies above the value the counter had at
    this worker's last call before the video and not above its value at
    the worker's last call. *)
Theorem global_numbers_increase_within_a_video
    (v : Video) (out : string) (w : World) (res : VideoResult) (w' : World) :
  process_single_video v out w = (Val (Some res), w') ->
  let globals := map global_person_number (summary_detection_results res) in
  StronglySorted lt globals
  /\ Forall (fun n => _value (global_person_counter w) < n
                      <= _value (global_person_counter w')) globals
  /\ _value (global_person_counter w) + total_unique_people_detected res
     <= _value (global_person_counter w').
Proof.
  intros Hrun globals.
  destruct (process_single_video_Some _ _ _ _ _ Hrun) as (s & _ & _ & Hs & _).
  destruct (completed_run _ _ _ _ _ _ Hrun Hs) as (Hc & _ & _ & Hn & _ & Hg & _).
  set (g := _value (global_person_counter w)) in *.
  set (atts := attempts _ _ _ _ _) in *.
  destruct (attempts_global_numbers (occurrences s) [] 0 g (interleaved w))
    as [Gs Gf].
  fold atts in Gs, Gf.
  destruct (counter_after_bounds g atts Gf Gs) as [G0 Gb]. rewrite <- Hg in *.
  apply numbers_local in Hn as [_ Hgl]. fold globals in Hgl.
  split; [|split].
  - rewrite Hgl. apply StronglySorted_map_filter, Gs.
  - rewrite Hgl. apply Forall_forall. intros n Hin.
    apply in_map_iff in Hin as (a & <- & Ha). apply filter_In in Ha as [Ha _].
    rewrite Forall_forall in Gf, Gb.
    pose proof (Gf _ (in_map global_no _ _ Ha)).
    pose proof (Gb _ (in_map global_no _ _ Ha)). lia.
  - rewrite Hc, Hg. unfold counter_after.
    rewrite <- (length_map global_no atts). apply last_above; assumption.
Qed.

Lemma global_numbers_increase_within_a_video_witness :
  let w := {| global_person_counter := new_counter; interleaved := [0; 2];
              log := [] |} in
  exists res w',
    process_single_video Sample.three_people "out" w = (Val (Some res), w')
    /\ StronglySorted lt (map global_person_number (summary_detection_results res)).
Proof.
  intros w.
  destruct (process_single_video Sample.three_people "out" w) as [r w'] eqn:E.
  assert (R : exists res, r = Val (Some res)).
  { vm_compute in E. injection E as <- _. eexists. reflexivity. }
  destruct R as (res & ->). exists res, w'. split; [reflexivity|].
  apply (global_numbers_increase_within_a_video _ _ _ _ _ E).
Defined.

Lemma images_have_the_global_number dir (ds : list DetectionRecord) v x :
  Forall (well_formed v) ds ->
  In x (flat_map (images_of dir) ds) ->
  exists d, In d ds /\ global_in_name (snd x) = Some (global_person_number d).
Proof.
  intros W H. apply in_flat_map in H as (d & Hd & Hx). exists d. split; [exact Hd|].
  rewrite Forall_forall in W. destruct (W d Hd) as (_ & P & A & _).
  unfold images_of in Hx. destruct Hx as [<-|Hx].
  - simpl. rewrite P. reflexivity.
  - destruct A as [A|A]; rewrite A in Hx; [contradiction|].
    destruct Hx as [<-|[]]. reflexivity.
Qed.

Lemma images_distinct dir v (ds : list DetectionRecord) :
  Forall (well_formed v) ds ->
  NoDup (map global_person_number ds) ->
  NoDup (flat_map (images_of dir) ds).
Proof.
  induction ds as [|d ds IH]; intros W N; simpl; [constructor|].
  inversion W as [|? ? Wd Wds]; inversion N as [|? ? Nd Nds]; subst.
  assert (Fresh : forall x, In x (flat_map (images_of dir) ds) ->
                            global_in_name (snd x) <> Some (global_person_number d)).
  { intros x Hx E.
    destruct (images_have_the_global_number _ _ _ _ Wds Hx) as (d' & Hd' & G).
    rewrite G in E. injection E as E. apply Nd. rewrite <- E.
    apply in_map, Hd'. }
  destruct Wd as (_ & P & A & _).
  constructor.
  - intros H. apply in_app_or in H as [H|H].
    + destruct A as [A|A]; rewrite A in H; [contradiction|].
      destruct H as [H|[]]. rewrite P in H. discriminate.
    + apply (Fresh _ H). simpl. rewrite P. reflexivity.
  - apply NoDup_app.
    + destruct (annotated_image d); repeat constructor; simpl; tauto.
    + apply IH; assumption.
    + intros x Hx Hin. apply (Fresh _ Hin).
      destruct A as [A|A]; rewrite A in Hx; [contradiction|].
      destruct Hx as [<-|[]]. reflexivity.
Qed.

(** X9.  A worker that returns its result has written every image file
    once: no two calls of [cv2.imwrite] of one video go to the same file,
    so that no image of a person replaces another. *)
Theorem no_image_is_written_twice
    (v : Video) (out : string) (w : World) (res : VideoResult) (w' : World) :
  process_single_video v out w = (Val (Some res), w') ->
  NoDup (image_writes (added w w')).
Proof.
  intros Hrun.
  destruct (completed_run_log _ _ _ _ _ Hrun) as (evs & A & F & W).
  destruct (process_single_video_Some _ _ _ _ _ Hrun) as (s & _ & _ & Hs & _).
  destruct (completed_run _ _ _ _ _ _ Hrun Hs) as (_ & _ & _ & Hn & _).
  apply numbers_local in Hn as [_ Hg].
  rewrite A, !image_writes_app. simpl. rewrite app_nil_r.
  rewrite <- image_writes_filter, F, image_writes_records.
  apply (images_distinct _ v); [exact W|].
  rewrite Hg. apply StronglySorted_lt_NoDup, StronglySorted_map_filter.
  apply attempts_global_numbers.
Qed.

Lemma no_image_is_written_twice_witness :
  exists res w',
    process_single_video Sample.three_people "out" initial_world
    = (Val (Some res), w')
    /\ NoDup (image_writes (added initial_world w')).
Proof.
  destruct (process_single_video Sample.three_people "out" initial_world)
    as [r w'] eqn:E.
  assert (R : exists res, r = Val (Some res)).
  { vm_compute in E. injection E as <- _. eexists. reflexivity. }
  destruct R as (res & ->). exists res, w'. split; [reflexivity|].
  apply (no_image_is_written_twice _ _ _ _ _ E).
Defined.

(** ** When the worker raises on its own *)

Lemma skip_frames_fields k l :
  frame_number (skip_frames k l) = frame_number l + k
  /\ last_progress_time (skip_frames k l) = last_progress_time l
  /\ detection_results (skip_frames k l) = detection_results l
  /\ local_person_count (skip_frames k l) = local_person_count l.
Proof.
  unfold skip_frames. induction k as [|k (F & P & D & C)]; simpl.
  - repeat split; lia.
  - repeat split; auto. lia.
Qed.

Lemma unsampled_frames_pass out v s pre : forall rest l w,
  frame_number l + length pre < 10 ->
  for_each (process_frame out v s) (pre ++ rest) l w =
  for_each (process_frame out v s) rest (skip_frames (length pre) l) w.
Proof.
  induction pre as [|fr pre IH]; intros rest l w H; [reflexivity|].
  cbn [app for_each length] in *. unfold bind at 1.
  rewrite process_frame_unfold.
  assert (N : frame_number (next_frame l) = frame_number l + 1) by reflexivity.
  assert (M : (frame_number (next_frame l) mod 10 =? 0) = false).
  { apply Nat.eqb_neq. rewrite N, Nat.mod_small by lia. lia. }
  rewrite M. cbn [negb]. rewrite IH by (rewrite N; lia).
  unfold skip_frames. rewrite Nat.iter_swap. reflexivity.
Qed.

(** X11.  A stream that reports a frame count of zero and takes five
    seconds or more from the start of the loop to its tenth frame ends
    the worker with a [ZeroDivisionError], raised by the first progress
    report: [track] has not been called on any frame, nothing has been
    written, the stream is not released. *)
Theorem zero_frame_count_ends_the_worker
    (v : Video) (out : string) (w : World) (s : Stream)
    (pre post : list Frame) (fr : Frame) :
  capture v = Some s ->
  total_frames s = 0%Z ->
  frames s = pre ++ fr :: post ->
  length pre = 9 ->
  Qle_bool 5 (clock fr - start_clock s) = true ->
  let (r, w') := process_single_video v out w in
  r = Exc ZeroDivisionError /\ added w w' = preamble v out.
Proof.
  intros Hs Ht Hf Hp Hc. rewrite process_single_video_unfold, Hs, Hf.
  rewrite unsampled_frames_pass by (rewrite Hp; simpl; lia).
  cbn [for_each]. unfold bind at 1. rewrite process_frame_unfold.
  destruct (skip_frames_fields (length pre) (initial_locals s)) as (F & P & _).
  assert (N : frame_number (next_frame (skip_frames (length pre) (initial_locals s)))
              = 10).
  { cbn [next_frame frame_number]. rewrite F, Hp. reflexivity. }
  rewrite N. change (10 mod 10 =? 0) with true. cbn [negb].
  unfold report_progress. cbn [last_progress_time next_frame].
  rewrite P. cbn [initial_locals last_progress_time]. rewrite Hc, Ht.
  cbn. split; [reflexivity|]. apply added_app. reflexivity.
Qed.

Lemma zero_frame_count_ends_the_worker_witness :
  process_single_video Sample.no_frame_count "out" initial_world =
  (Exc ZeroDivisionError, opened Sample.no_frame_count "out" initial_world).
Proof.
  pose proof (zero_frame_count_ends_the_worker Sample.no_frame_count "out"
                initial_world _ (repeat Sample.nobody 9) []
                {| shape := (480, 640);
                   track_answer := track_answer (Sample.showing [(Sample.near, 1%Z)]);
                   clock := 6 |}
                eq_refl eq_refl eq_refl eq_refl eq_refl) as H.
  destruct (process_single_video Sample.no_frame_count "out" initial_world)
    as [r w'] eqn:E.
  destruct H as [-> _]. vm_compute in E. injection E as <-. reflexivity.
Defined.

Lemma occurrences_from_frames fs : forall n o,
  In o (occurrences_from n fs) -> In (in_frame o) fs.
Proof.
  intros n o H. apply occurrences_from_sound in H as (_ & _ & N).
  eapply nth_error_In, N.
Qed.

Lemma nothing_kept occs : forall c g others,
  Forall (fun o => adequate o = false) occs ->
  filter kept (attempts [] c g others occs) = []
  /\ length (attempts [] c g others occs) = length (filter qualifying occs).
Proof.
  induction occs as [|o occs IH]; intros c g others H; simpl; [auto|].
  inversion H as [|? ? Ho Hr]; subst.
  destruct (qualifying o); simpl.
  - rewrite Ho. simpl. destruct (IH (c + 1) (g + hd 0 others + 1) (tl others) Hr)
      as [K L]. rewrite L. auto.
  - apply IH, Hr.
Qed.

Lemma small_frame_small_crop fr box :
  fst (shape fr) < 50 \/ snd (shape fr) < 50 -> too_small fr box = true.
Proof.
  intros H. unfold too_small, person_roi_shape.
  destruct (xyxy box) as [[[x1 y1] x2] y2]. cbn [fst snd].
  pose proof (slice_len_le (fst (shape fr)) y1 y2).
  pose proof (slice_len_le (snd (shape fr)) x1 x2).
  apply orb_true_iff. destruct H; [left|right]; apply Nat.ltb_lt; lia.
Qed.

(** X12.  A video whose frames are lower or narrower than 50 pixels
    gets no record and no tracked id, whatever is detected on it; and
    its reported count of unique people is the number of confident person
    detections on its sampled frames, each counted every time it is
    seen. *)
Theorem low_resolution_video_counts_every_detection
    (v : Video) (out : string) (w : World) (res : VideoResult) (w' : World)
    (s : Stream) :
  process_single_video v out w = (Val (Some res), w') ->
  capture v = Some s ->
  Forall (fun fr => fst (shape fr) < 50 \/ snd (shape fr) < 50) (frames s) ->
  summary_detection_results res = []
  /\ tracking_ids_detected res = []
  /\ total_unique_people_detected res = length (filter qualifying (occurrences s)).
Proof.
  intros Hrun Hs Hsmall.
  destruct (completed_run _ _ _ _ _ _ Hrun Hs) as (Hc & Hids & Ho & _).
  assert (A : Forall (fun o => adequate o = false) (occurrences s)).
  { apply Forall_forall. intros o Hin. unfold adequate.
    rewrite small_frame_small_crop; [reflexivity|].
    rewrite Forall_forall in Hsmall. apply Hsmall.
    eapply occurrences_from_frames, Hin. }
  destruct (nothing_kept _ 0 (_value (global_person_counter w)) (interleaved w) A)
    as [K L].
  rewrite K in Ho, Hids. simpl in Ho, Hids.
  apply map_eq_nil in Ho. rewrite Hc, L. auto.
Qed.

Lemma low_resolution_video_counts_every_detection_witness :
  let tiny := {| shape := (40, 640);
                 track_answer := track_answer (Sample.showing [(Sample.near, 7%Z)]);
                 clock := 0 |} in
  exists res w',
    process_single_video (Sample.video "tiny" (repeat tiny 20))
      "out" initial_world = (Val (Some res), w')
    /\ summary_detection_results res = []
    /\ total_unique_people_detected res = 2.
Proof.
  intros tiny.
  destruct (process_single_video (Sample.video "tiny" (repeat tiny 20))
              "out" initial_world) as [r w'] eqn:E.
  assert (R : exists res, r = Val (Some res)).
  { vm_compute in E. injection E as <- _. eexists. reflexivity. }
  destruct R as (res & ->).
  destruct (low_resolution_video_counts_every_detection _ _ _ _ _ _ E eq_refl)
    as (D & _ & C).
  - apply Forall_forall. intros fr H. apply repeat_spec in H. subst fr.
    left. unfold tiny. cbn [shape fst]. lia.
  - exists res, w'. split; [reflexivity|]. split; [exact D|]. rewrite C.
    vm_compute. reflexivity.
Defined.

(** ** Workers one after the other *)

Lemma quiet_ret {A} (a : A) : quiet (ret a).
Proof. intros w. simpl. auto. Qed.

Lemma quiet_raise {A} e : quiet (@raise A e).
Proof. intros w. simpl. auto. Qed.

Lemma quiet_emit e : quiet (emit e).
Proof. intros w. simpl. auto. Qed.

Lemma quiet_increment : quiet global_increment.
Proof.
  intros w. unfold global_increment, increment. simpl.
  rewrite others_increment_value. split; [lia|]. intros ->. reflexivity.
Qed.

Lemma quiet_bind {A B} (m : M A) (k : A -> M B) :
  quiet m -> (forall a, quiet (k a)) -> quiet (bind m k).
Proof.
  intros Hm Hk w. unfold bind. destruct (Hm w) as [L1 I1].
  destruct (m w) as [[a|e] w1]; simpl in *; [|auto].
  destruct (Hk a w1) as [L2 I2]. split; [lia|auto].
Qed.

Lemma quiet_call {A} e (answer : Res A) : quiet (call e answer).
Proof.
  unfold call. apply quiet_bind; [apply quiet_emit|].
  intros _. destruct answer; [apply quiet_ret|apply quiet_raise].
Qed.

Lemma quiet_answer {A} (r : Res A) : quiet (answer r).
Proof. destruct r; [apply quiet_ret|apply quiet_raise]. Qed.

Lemma quiet_for_each {A S} (body : A -> S -> M S) xs :
  (forall x s, quiet (body x s)) -> forall s, quiet (for_each body xs s).
Proof.
  intros H. induction xs as [|x xs IH]; intros s; simpl.
  - apply quiet_ret.
  - apply quiet_bind; auto.
Qed.

Lemma quiet_process_box out v fr bt l : quiet (process_box out v fr bt l).
Proof.
  unfold process_box. destruct bt as [box tid].
  destruct (is_confident_person box); [|apply quiet_ret].
  destruct (dict_mem tid (tracked_people l)); [apply quiet_ret|].
  apply quiet_bind; [apply quiet_increment|]. intros g.
  destruct (too_small fr box); [apply quiet_ret|].
  apply quiet_bind; [apply quiet_call|]. intros t.
  apply quiet_bind; [apply quiet_call|]. intros _.
  apply quiet_bind; [apply quiet_answer|]. intros plotted.
  apply quiet_bind; [|intros; apply quiet_ret].
  destruct plotted; [|apply quiet_ret].
  apply quiet_bind; [apply quiet_answer|]. intros _.
  apply quiet_bind; [apply quiet_call|]. intros _. apply quiet_ret.
Qed.

Lemma quiet_process_frame out v s fr l : quiet (process_frame out v s fr l).
Proof.
  unfold process_frame. destruct (negb _); [apply quiet_ret|].
  apply quiet_bind.
  - unfold report_progress. destruct (Qle_bool _ _); [|apply quiet_ret].
    destruct (Z.eqb _ _); [apply quiet_raise|apply quiet_ret].
  - intros l1. apply quiet_bind; [apply quiet_call|]. intros rs.
    apply quiet_for_each. intros r l2. unfold process_result.
    destruct (boxes r) as [bs|]; [|apply quiet_ret].
    destruct (id bs); [|apply quiet_ret].
    apply quiet_for_each. intros. apply quiet_process_box.
Qed.

Lemma quiet_process_single_video v out : quiet (process_single_video v out).
Proof.
  unfold process_single_video.
  apply quiet_bind; [apply quiet_emit|]. intros _.
  apply quiet_bind; [apply quiet_emit|]. intros _.
  apply quiet_bind; [apply quiet_emit|]. intros _.
  destruct (capture v) as [s|]; [|apply quiet_ret].
  apply quiet_bind.
  - apply quiet_for_each. intros. apply quiet_process_frame.
  - intros l. apply quiet_bind; [apply quiet_emit|]. intros _.
    apply quiet_bind; [apply quiet_emit|]. intros _. apply quiet_ret.
Qed.

(** A worker alone on the counter that returns its result. *)
Lemma completed_run_alone v out w res w' :
  process_single_video v out w = (Val (Some res), w') ->
  interleaved w = [] ->
  let g := _value (global_person_counter w) in
  _value (global_person_counter w') = g + total_unique_people_detected res
  /\ interleaved w' = []
  /\ StronglySorted lt (map global_person_number (summary_detection_results res))
  /\ Forall (fun n => g < n <= _value (global_person_counter w'))
       (map global_person_number (summary_detection_results res)).
Proof.
  intros Hrun Hi g.
  destruct (process_single_video_Some _ _ _ _ _ Hrun) as (s & _ & _ & Hs & _).
  destruct (completed_run _ _ _ _ _ _ Hrun Hs) as (Hc & _ & _ & Hn & _ & Hg & Hi').
  rewrite Hi in *. fold g in Hc, Hn, Hg.
  set (atts := attempts [] 0 g [] (occurrences s)) in *.
  pose proof (attempts_global_numbers_alone (occurrences s) [] 0 g) as Hseq.
  fold atts in Hseq.
  assert (G : _value (global_person_counter w') = g + length atts).
  { rewrite Hg. unfold counter_after. rewrite Hseq.
    destruct (length atts) as [|n]; [simpl; lia|].
    rewrite seq_S, last_last. lia. }
  apply numbers_local in Hn as [_ Hgl].
  split; [rewrite G, Hc; reflexivity|]. split; [rewrite Hi', skipn_nil; reflexivity|].
  split.
  - rewrite Hgl. apply StronglySorted_map_filter. rewrite Hseq.
    apply StronglySorted_seq.
  - rewrite Hgl, G. apply Forall_forall. intros n Hin.
    apply in_map_iff in Hin as (a & <- & Ha). apply filter_In in Ha as [Ha _].
    assert (I : In (global_no a) (seq (g + 1) (length atts)))
      by (rewrite <- Hseq; apply in_map, Ha).
    apply in_seq in I. lia.
Qed.

(** X13.  The workers of a run with one pool thread, one video after
    the other, on a counter that nothing else touches: over all the
    results of the run no global person number occurs twice, every number
    in a record was issued during the run, and the sum of the reported
    counts of unique people is at most the number of global numbers
    issued, and equal to it when every worker returned a result. *)
Theorem global_numbers_are_unique_across_videos
    (videos : list Video) (out : string) (w : World) :
  interleaved w = [] ->
  let (fs, w') := run_in_turn videos out w in
  let g := _value (global_person_counter w) in
  let g' := _value (global_person_counter w') in
  map fst fs = map video_path videos
  /\ NoDup (global_numbers_of (successes fs))
  /\ Forall (fun n => g < n <= g') (global_numbers_of (successes fs))
  /\ g + list_sum (map total_unique_people_detected (successes fs)) <= g'
  /\ (forallb succeeded fs = true ->
      g + list_sum (map total_unique_people_detected (successes fs)) = g').
Proof.
  revert w. induction videos as [|v videos IH]; intros w Hi.
  - simpl. split; [reflexivity|]. split; [constructor|]. split; [constructor|].
    split; intros; lia.
  - cbn [run_in_turn]. unfold settle.
    destruct (process_single_video v out w) as [r w1] eqn:E.
    destruct (quiet_process_single_video v out w) as [Q1 Q2].
    rewrite E in Q1, Q2. cbn [snd] in Q1, Q2.
    specialize (IH w1 (Q2 Hi)).
    destruct (run_in_turn videos out w1) as [fs w2].
    cbv zeta in IH. destruct IH as (Hp & Hn & Hf & Hs & Ha).
    cbv zeta. cbn [map fst].
    split; [f_equal; exact Hp|].
    destruct r as [[res|]|e].
    + destruct (completed_run_alone _ _ _ _ _ E Hi) as (G & _ & S & F).
      cbv zeta in G, F.
      unfold successes, global_numbers_of. cbn [flat_map snd app map list_sum].
      fold (successes fs). fold (global_numbers_of (successes fs)).
      split; [|split; [|split]].
      * apply NoDup_app; [apply StronglySorted_lt_NoDup, S|exact Hn|].
        intros n H1 H2. rewrite Forall_forall in F, Hf.
        specialize (F n H1). specialize (Hf n H2). lia.
      * apply Forall_app. split.
        -- eapply Forall_impl; [|exact F]. simpl. intros; lia.
        -- eapply Forall_impl; [|exact Hf]. simpl. intros; lia.
      * change (list_sum (?x :: ?l)) with (x + list_sum l). lia.
      * intros H. cbn [forallb] in H. apply andb_true_iff in H as [_ H].
        specialize (Ha H). change (list_sum (?x :: ?l)) with (x + list_sum l).
        lia.
    + unfold successes, global_numbers_of. cbn [flat_map snd app].
      fold (successes fs). fold (global_numbers_of (successes fs)).
      split; [exact Hn|]. split; [|split; [lia|]].
      * eapply Forall_impl; [|exact Hf]. simpl. intros; lia.
      * intros H. cbn [forallb] in H. discriminate.
    + unfold successes, global_numbers_of. cbn [flat_map snd app].
      fold (successes fs). fold (global_numbers_of (successes fs)).
      split; [exact Hn|]. split; [|split; [lia|]].
      * eapply Forall_impl; [|exact Hf]. simpl. intros; lia.
      * intros H. cbn [forallb] in H. discriminate.
Qed.

Lemma global_numbers_are_unique_across_videos_witness :
  let (fs, w') := run_in_turn [Sample.two_people; Sample.breaks; Sample.three_people]
                    "out" initial_world in
  global_numbers_of (successes fs) = [1; 2; 4; 5; 6]
  /\ NoDup (global_numbers_of (successes fs)).
Proof.
  pose proof (global_numbers_are_unique_across_videos
                [Sample.two_people; Sample.breaks; Sample.three_people]
                "out" initial_world eq_refl) as H.
  destruct (run_in_turn _ _ _) as [fs w'] eqn:E.
  destruct H as (_ & N & _). split; [|exact N].
  vm_compute in E. injection E as <- _. reflexivity.
Defined.

(** ** The main block *)



(** ** More on the counter under any schedule *)

Section CounterFacts.
Import Counter Counter2.

Lemma only_one_inside l h :
  (forall t p, nth_error l t = Some p -> critical p = true -> t = h) ->
  length (inside l) <= 1.
Proof.
  unfold inside. revert h. induction l as [|p l IH]; intros h H; simpl; [lia|].
  destruct (critical p) eqn:C.
  - assert (h = 0) by (symmetry; apply (H 0 p); auto). subst h.
    assert (E : filter critical l = []).
    { destruct (filter critical l) as [|q r] eqn:F; [reflexivity|].
      assert (I : In q (filter critical l)) by (rewrite F; left; reflexivity).
      apply filter_In in I as [I Cq]. apply In_nth_error in I as [t I].
      specialize (H (S t) q I Cq). discriminate. }
    rewrite E. simpl. lia.
  - apply (IH (pred h)). intros t q Hq Cq.
    specialize (H (S t) q Hq Cq). subst h. reflexivity.
Qed.

Lemma nobody_inside l :
  (forall t p, nth_error l t = Some p -> critical p = false) -> inside l = [].
Proof.
  unfold inside. intros H.
  destruct (filter critical l) as [|q r] eqn:F; [reflexivity|].
  assert (I : In q (filter critical l)) by (rewrite F; left; reflexivity).
  apply filter_In in I as [I Cq]. apply In_nth_error in I as [t I].
  rewrite (H t q I) in Cq. discriminate.
Qed.

End CounterFacts.

(** X15.  Whatever the number of worker threads and the schedule, at
    most one thread is between taking and giving back the lock; when
    the lock is free no thread is, and when it is held its holder is.  The
    counter never runs more than one ahead of the values read at
    [return], and the number of threads does not change. *)
Theorem at_most_one_thread_inside_the_lock (workers : nat) (schedule : list nat) :
  let s := Counter.run schedule (Counter.init workers) in
  length (Counter2.inside (Counter.pcs s)) <= 1
  /\ match Counter.lock s with
     | None => Counter2.inside (Counter.pcs s) = []
     | Some h => exists p, nth_error (Counter.pcs s) h = Some p
                           /\ Counter.critical p = true
     end
  /\ length (Counter.issued s) <= _value (Counter.counter s)
     <= S (length (Counter.issued s))
  /\ length (Counter.pcs s) = workers.
Proof.
  intros s.
  destruct (inv_run schedule _ (inv_init workers)) as (_ & _ & Hlock).
  fold s in Hlock.
  assert (L : length (Counter.pcs s) = workers).
  { unfold s. rewrite length_pcs_run. simpl. apply repeat_length. }
  destruct (Counter.lock s) as [h|].
  - destruct Hlock as [U (p & Hp & Hok)].
    split; [apply (only_one_inside _ h U)|].
    split; [exists p; split; [exact Hp|destruct p; simpl in *; tauto]|].
    split; [|exact L].
    destruct p; simpl in Hok; try contradiction; lia.
  - destruct Hlock as [U V].
    rewrite (nobody_inside _ U). simpl. repeat split; auto; lia.
Qed.

Section CounterProgress.
Import Counter Counter2.

Lemma upd_upd t p q l : upd t p (upd t q l) = upd t p l.
Proof.
  revert t. induction l as [|x l IH]; intros [|t]; simpl; auto.
  f_equal. apply IH.
Qed.

Lemma upd_same t p l : nth_error l t = Some p -> upd t p l = l.
Proof.
  revert t. induction l as [|x l IH]; intros [|t]; simpl; intros H;
    try discriminate.
  - injection H as ->. reflexivity.
  - f_equal. apply IH, H.
Qed.

Lemma quiescent_lock_free s : inv s -> quiescent s -> lock s = None.
Proof.
  intros (_ & _ & Hlock) Q. destruct (lock s) as [h|]; [|reflexivity].
  destruct Hlock as [_ (p & Hp & Hok)].
  unfold quiescent in Q. rewrite Forall_forall in Q.
  rewrite (Q p (nth_error_In _ _ Hp)) in Hok. contradiction.
Qed.

End CounterProgress.

(** X16.  A call of [increment] made while no other call is under way
    comes back: seven moves of the calling thread, taken in any reachable
    state in which every thread is outside [increment], end with the
    lock free again, every thread outside, the counter one higher, and
    the caller holding the new value of the counter, which is one more
    than the number of values handed out before. *)
Theorem a_call_alone_returns_the_next_value
    (workers : nat) (schedule : list nat) (t : nat) :
  t < workers ->
  let s := Counter.run schedule (Counter.init workers) in
  Counter.quiescent s ->
  let s' := Counter.run (Counter2.one_call t) s in
  Counter.quiescent s'
  /\ Counter.lock s' = None
  /\ _value (Counter.counter s') = _value (Counter.counter s) + 1
  /\ Counter.returned s' =
     Counter.returned s ++ [(t, _value (Counter.counter s'))]
  /\ _value (Counter.counter s') = length (Counter.issued s) + 1.
Proof.
  intros Ht s Q.
  pose proof (inv_run schedule _ (inv_init workers)) as I. fold s in I.
  pose proof (quiescent_lock_free s I Q) as Hl.
  assert (Hv : _value (Counter.counter s) = length (Counter.issued s)).
  { destruct I as (_ & _ & Hlock). rewrite Hl in Hlock. apply Hlock. }
  assert (Hp : nth_error (Counter.pcs s) t = Some Counter.Idle).
  { assert (L : t < length (Counter.pcs s)).
    { unfold s. rewrite length_pcs_run. simpl. rewrite repeat_length. exact Ht. }
    destruct (nth_error (Counter.pcs s) t) as [p|] eqn:E.
    - unfold Counter.quiescent in Q. rewrite Forall_forall in Q.
      rewrite (Q p (nth_error_In _ _ E)). reflexivity.
    - apply nth_error_None in E. lia. }
  assert (U : forall p, nth_error (Counter.upd t p (Counter.pcs s)) t = Some p)
    by (intros p; apply (nth_error_upd_same t p _ _ Hp)).
  intros s'.
  assert (E : s' =
              {| Counter.counter := {| _value := _value (Counter.counter s) + 1 |};
                 Counter.lock := None;
                 Counter.pcs := Counter.pcs s;
                 Counter.issued :=
                   Counter.issued s ++ [_value (Counter.counter s) + 1];
                 Counter.returned :=
                   Counter.returned s ++ [(t, _value (Counter.counter s) + 1)] |}).
  { unfold s', Counter.run, Counter2.one_call. cbn [repeat fold_left].
    unfold Counter.step at 7. rewrite Hp. unfold Counter.set_pc.
    unfold Counter.step at 6. cbn [Counter.pcs Counter.lock]. rewrite U, Hl.
    unfold Counter.step at 5. cbn [Counter.pcs Counter.lock]. rewrite upd_upd, U.
    unfold Counter.set_pc. cbn [Counter.pcs Counter.lock Counter.counter].
    unfold Counter.step at 4. cbn [Counter.pcs Counter.lock]. rewrite upd_upd, U.
    cbn [Counter.pcs Counter.lock Counter.counter].
    unfold Counter.step at 3. cbn [Counter.pcs Counter.lock]. rewrite upd_upd, U.
    cbn [Counter.pcs Counter.lock Counter.counter Counter.issued].
    unfold Counter.step at 2. cbn [Counter.pcs Counter.lock]. rewrite upd_upd, U.
    cbn [Counter.pcs Counter.lock Counter.counter Counter.issued].
    unfold Counter.step at 1. cbn [Counter.pcs Counter.lock]. rewrite upd_upd, U.
    cbn [Counter.pcs Counter.lock Counter.counter Counter.issued Counter.returned
         _value].
    rewrite upd_upd, (upd_same _ _ _ Hp). reflexivity. }
  rewrite E. unfold Counter.quiescent. cbn. repeat split; auto.
Qed.

Lemma a_call_alone_returns_the_next_value_witness :
  Counter.returned
    (Counter.run (Counter2.one_call 1)
       (Counter.run [0; 1; 0; 1; 0; 0; 0; 0; 1; 1; 1; 1; 1; 1; 0] (Counter.init 2)))
  = [(1, 2); (0, 1); (1, 3)].
Proof.
  destruct (a_call_alone_returns_the_next_value 2
              [0; 1; 0; 1; 0; 0; 0; 0; 1; 1; 1; 1; 1; 1; 0] 1)
    as (_ & _ & V & R & _).
  - lia.
  - vm_compute. repeat constructor.
  - rewrite R, V. reflexivity.
Defined.
